(** * Snow: the motion model of [snow.py]

    A shallow embedding of the noise primitive, the wind field and the
    per-particle physics of [snow.py], followed by the properties of the
    natural-language specification that concern them.

    Numbers.  Python [float]s are idealised as real numbers ([R]); Python
    [int]s are [Z], with the 32-bit masking of [hash01] written out with
    [Z.land].  The integer part of [hash01] is executable; everything real
    valued is reasoned about with [lra]/[nra] and the lemmas of [Zfloor].

    Randomness.  The process-global [random] module is made explicit: a
    generator value is threaded through every function that draws from it,
    in the order in which the source draws. *)

From Stdlib Require Import ZArith Reals Lra Lia Psatz List.

Open Scope R_scope.

(** ** Settings (lines 8-10) *)

Definition WIDTH : R := 900.
Definition HEIGHT : R := 600.

(** ** Noise primitive (lines 17-36) *)

Module Noise.

(** [smoothstep], line 19. *)
Definition smoothstep (x : R) : R := x * x * (3 - 2 * x).

(** The integer that [hash01] computes before its final division
    (lines 23-25 and the masked numerator of line 26).  In line 24 the
    product binds tighter than [&]. *)
Definition hash01_bits (i seed : Z) : Z :=
  let n := Z.land (i * 374761393 + seed * 668265263) 0xFFFFFFFF in
  let n := Z.land (Z.lxor n (Z.shiftr n 13) * 1274126177) 0xFFFFFFFF in
  let n := Z.lxor n (Z.shiftr n 16) in
  Z.land n 0xFFFFFFFF.

(** [hash01], line 26: true division of the masked integer by
    [0xFFFFFFFF]. *)
Definition hash01 (i seed : Z) : R :=
  IZR (hash01_bits i seed) / IZR 0xFFFFFFFF.

(** [value_noise_1d], lines 28-36; [math.floor] is [Zfloor]. *)
Definition value_noise_1d (t : R) (seed : Z) : R :=
  let i0 := Zfloor t in
  let i1 := (i0 + 1)%Z in
  let f := t - IZR i0 in
  let a := hash01 i0 seed in
  let b := hash01 i1 seed in
  let u := smoothstep f in
  a * (1 - u) + b * u.

End Noise.

Import Noise.

(** ** Wind field (lines 120-150) *)

Definition wind_field (t y depth : R) (seed : Z) : R * R :=
  let dir_x := 0.5 - depth in
  let height_factor := 0.4 + 0.6 * (1.0 - y / HEIGHT) in
  let base := sin (t * 0.35) in
  let jitter := (value_noise_1d (t * 0.9) seed * 2 - 1) * 0.35 in
  let wind_strength := (base + jitter) * 200 * height_factor in
  let ax := dir_x * wind_strength in
  let gust := Rmax 0.0 (sin (t * 1.2 + IZR seed * 0.01)) in
  let lift_personal := value_noise_1d (t * 1.1) (seed + 999) in
  let lift := gust * lift_personal * 220 * (0.3 + 0.7 * height_factor) in
  let ay := - lift in
  (ax, ay).

(** ** The random source

    [random.random()], [random.uniform(a, b)] and [random.randint(a, b)]
    all consume the one generator of the [random] module.  A generator is
    modelled by what it is going to answer: the [n]-th call answers with
    [unit_draw n] when it is a call of [random()], and from [int_draw n]
    when it is a call of [randint].  [cursor] counts the calls made. *)

Module Random.

Record rng : Type := mkRng {
  unit_draw : nat -> R;
  int_draw : nat -> Z;
  cursor : nat
}.

Definition advance (g : rng) : rng :=
  mkRng (unit_draw g) (int_draw g) (S (cursor g)).

(** A computation that draws from the generator. *)
Definition Rand (A : Type) : Type := rng -> A * rng.

Definition ret {A : Type} (a : A) : Rand A := fun g => (a, g).

Definition bind {A B : Type} (c : Rand A) (k : A -> Rand B) : Rand B :=
  fun g => let (a, g') := c g in k a g'.

(** [random.random()]: the next float of the generator. *)
Definition random : Rand R :=
  fun g => (unit_draw g (cursor g), advance g).

(** [random.uniform(a, b)] is [a + (b - a) * random()]. *)
Definition uniform (a b : R) : Rand R :=
  bind random (fun u => ret (a + (b - a) * u)).

(** [random.randint(a, b)]: an integer of the closed range [a..b]. *)
Definition randint (a b : Z) : Rand Z :=
  fun g => ((a + int_draw g (cursor g) mod (b - a + 1))%Z, advance g).

(** What the library promises of [random()]: a value of [0, 1). *)
Definition rng_ok (g : rng) : Prop :=
  forall n : nat, 0 <= unit_draw g n < 1.

End Random.

Import Random.

Declare Scope rand_scope.
Delimit Scope rand_scope with rand.
Notation "x <- c ;; k" := (bind c (fun x => k))
  (at level 61, c at next level, right associativity) : rand_scope.
Open Scope rand_scope.

(** ** Particle (lines 41-111) *)

(** [int(r)] on a float: truncation towards zero. *)
Definition int (r : R) : Z :=
  if Rle_dec 0 r then Zfloor r else Zceil r.

Module SnowParticle.

(** The attributes that [reset] assigns (lines 46-69). *)
Record particle : Type := mkParticle {
  x : R;
  y : R;
  depth : R;
  size : R;
  alpha : Z;
  gravity : R;
  vx : R;
  vy : R;
  sway_amp : R;
  sway_speed : R;
  drag : R;
  seed : Z
}.

(** Assignment to [self.x], the only attribute that is written alone
    (lines 109 and 111). *)
Definition set_x (self : particle) (x' : R) : particle :=
  mkParticle x' (y self) (depth self) (size self) (alpha self)
    (gravity self) (vx self) (vy self) (sway_amp self) (sway_speed self)
    (drag self) (seed self).

(** [reset], lines 45-69.  Every attribute is assigned, so the particle
    after the call is built whole; the three draws are made in source
    order: [depth], the factor of [sway_speed], [seed]. *)
Definition reset (x0 y0 : R) : Rand particle :=
  d <- random ;;
  r <- random ;;
  s <- randint 0 10000 ;;
  ret {| x := x0;
         y := y0;
         depth := d;
         size := 1 + d * 2.5;
         alpha := int (70 + d * 185);
         gravity := 30 + d * 80;
         vx := 0.0;
         vy := 20 + d * 150;
         sway_amp := 40 + d * 70;
         sway_speed := 0.25 + r * 0.8;
         drag := 1.6 - d * 0.6;
         seed := s |}.

(** [__init__], line 43: both arguments are drawn before [reset] runs. *)
Definition init : Rand particle :=
  x0 <- uniform 0 WIDTH ;;
  y0 <- uniform 0 HEIGHT ;;
  reset x0 y0.

(** The call [self.reset(random.uniform(0, WIDTH), y0)] of lines 101 and
    105: the argument is drawn first, then [reset] makes its own draws. *)
Definition reenter (y0 : R) : Rand particle :=
  x0 <- uniform 0 WIDTH ;; reset x0 y0.

(** The damping factor of line 90. *)
Definition damp (self : particle) (dt : R) : R :=
  Rmax 0.0 (1.0 - drag self * dt).

(** [update], lines 73-96: forces, velocity, damping, position. *)
Definition integrate (self : particle) (dt t : R) : particle :=
  let w := wind_field t (y self) (depth self) (seed self) in
  let ax_wind := fst w in
  let ay_wind := snd w in
  let n := value_noise_1d (t * sway_speed self) (seed self) in
  let sway := (n * 2 - 1) * sway_amp self in
  let ax_sway := sway in
  let ax := ax_wind + ax_sway in
  let ay := gravity self + ay_wind in
  let vx1 := vx self + ax * dt in
  let vy1 := vy self + ay * dt in
  let vx2 := vx1 * damp self dt in
  let vy2 := vy1 * damp self dt in
  mkParticle (x self + vx2 * dt) (y self + vy2 * dt) (depth self)
    (size self) (alpha self) (gravity self) vx2 vy2 (sway_amp self)
    (sway_speed self) (drag self) (seed self).

(** [update], lines 100-105: two independent [if]s, the second one reads
    the [y] that the first one may have just assigned. *)
Definition recycle (self : particle) : Rand particle :=
  self1 <- (if Rgt_dec (y self) (HEIGHT + 20)
            then reenter (-20)
            else ret self) ;;
  if Rlt_dec (y self1) (-60)
  then reenter (HEIGHT + 20)
  else ret self1.

(** [update], lines 108-111. *)
Definition wrap (self : particle) : particle :=
  if Rlt_dec (x self) (-50) then set_x self (WIDTH + 50)
  else if Rgt_dec (x self) (WIDTH + 50) then set_x self (-50)
  else self.

(** [update], lines 71-111. *)
Definition update (self : particle) (dt t : R) : Rand particle :=
  self1 <- recycle (integrate self dt t) ;;
  ret (wrap self1).

(** One particle under the driver's loop (lines 166-181): a list of
    ticks, each a pair [(dt, t)]. *)
Fixpoint updates (self : particle) (ticks : list (R * R)) : Rand particle :=
  match ticks with
  | nil => ret self
  | cons (dt, t) rest => self1 <- update self dt t ;; updates self1 rest
  end.

(** The states a particle object can be in: made by [__init__], then
    changed by [update] only. *)
Inductive reachable : particle -> Prop :=
| reach_init (g : rng) :
    rng_ok g -> reachable (fst (init g))
| reach_update (self : particle) (dt t : R) (g : rng) :
    reachable self -> rng_ok g -> reachable (fst (update self dt t g)).

(** The invariant of the data model: depth in [0, 1) and positive drag. *)
Definition depth_drag_inv (self : particle) : Prop :=
  0 <= depth self < 1 /\ 0 < drag self.

(** The extended screen box in which [update] leaves a particle. *)
Definition in_box (self : particle) : Prop :=
  -60 <= y self <= HEIGHT + 20 /\ -50 <= x self <= WIDTH + 50.

(** Two states that agree on every attribute but [x]. *)
Definition same_but_x (p q : particle) : Prop :=
  y p = y q /\ depth p = depth q /\ size p = size q /\
  alpha p = alpha q /\ gravity p = gravity q /\
  vx p = vx q /\ vy p = vy q /\
  sway_amp p = sway_amp q /\ sway_speed p = sway_speed q /\
  drag p = drag q /\ seed p = seed q.

(** A parameter set that agrees with the particle's depth, as [reset]
    derives it (lines 52-69). *)
Definition depth_consistent (self : particle) : Prop :=
  0 <= depth self < 1 /\
  size self = 1 + depth self * 2.5 /\
  alpha self = int (70 + depth self * 185) /\
  gravity self = 30 + depth self * 80 /\
  vx self = 0 /\
  vy self = 20 + depth self * 150 /\
  sway_amp self = 40 + depth self * 70 /\
  0.25 <= sway_speed self < 1.05 /\
  drag self = 1.6 - depth self * 0.6 /\
  (0 <= seed self <= 10000)%Z.

End SnowParticle.

Import SnowParticle.

(** ** Reference formulas

    The formulas of the specification, written from its sentences, for
    comparison with the functions above. *)

Module Reference.

Definition SCREEN_WIDTH : R := 900.
Definition SCREEN_HEIGHT : R := 600.

(** Section 4.1: the linear blend of the two neighbouring hashes. *)
Definition value_noise_1d (t : R) (seed : Z) : R :=
  let i0 := Zfloor t in
  let a := hash01 i0 seed in
  let b := hash01 (i0 + 1) seed in
  let u := smoothstep (t - IZR i0) in
  a * (1 - u) + b * u.

(** Section 4.2: the wind field with its contractual constants. *)
Definition wind_field (t y depth : R) (seed : Z) : R * R :=
  let dir_x := 0.5 - depth in
  let height_factor := 0.4 + 0.6 * (1 - y / SCREEN_HEIGHT) in
  let jitter := (Noise.value_noise_1d (t * 0.9) seed * 2 - 1) * 0.35 in
  let ax := dir_x * (sin (t * 0.35) + jitter) * 200 * height_factor in
  let gust := Rmax 0 (sin (t * 1.2 + IZR seed * 0.01)) in
  let lift_personal := Noise.value_noise_1d (t * 1.1) (seed + 999) in
  let ay := - (gust * lift_personal * 220 * (0.3 + 0.7 * height_factor)) in
  (ax, ay).

(** "round(r)": [z] is an integer nearest to [r]. *)
Definition nearest_int (r : R) (z : Z) : Prop :=
  Rabs (r - IZR z) <= 1 / 2.

End Reference.

(** ** Sample generators and particles *)

Module Samples.

(** A generator that always answers 0.5 and the integer 0. *)
Definition g_half : rng := mkRng (fun _ => 0.5) (fun _ => 0%Z) O.

(** A generator that always answers 0.75 and the integer 10000. *)
Definition g_top : rng := mkRng (fun _ => 0.75) (fun _ => 10000%Z) O.

(** The particle that [__init__] makes from [g_half]: mid-screen, depth
    0.5, seed 0. *)
Definition p_mid : particle :=
  mkParticle 450 300 0.5 2.25 162 70 0 95 75 0.65 1.3 0.

(** The same particle as it re-enters at the bottom edge, [y = 620]. *)
Definition p_low : particle :=
  mkParticle 450 620 0.5 2.25 162 70 0 95 75 0.65 1.3 0.

(** The same particle on the left edge, [x = -50], drifting left. *)
Definition p_left : particle :=
  mkParticle (-50) 300 0.5 2.25 162 70 (-10) 95 75 0.65 1.3 0.

(** The same particle on the right edge, [x = 950], drifting right. *)
Definition p_right : particle :=
  mkParticle 950 300 0.5 2.25 162 70 100 95 75 0.65 1.3 0.

End Samples.

(** ** Drawing (lines 113-117)

    [draw] only talks to pygame.  What is modelled is what it hands over:
    the size of the scratch surface, the colour, centre and radius of the
    circle drawn on it, and the screen position at which the surface is
    blitted. *)

Module Render.

Record sprite : Type := mkSprite {
  surface_size : Z * Z;
  colour : Z * Z * Z * Z;
  centre : Z * Z;
  radius : Z;
  dest : R * R
}.

Definition draw (self : particle) : sprite :=
  let r := int (size self) in
  mkSprite (r * 2 + 2, r * 2 + 2)%Z
           (255, 255, 255, alpha self)%Z
           (r + 1, r + 1)%Z
           r
           (x self - IZR r, y self - IZR r).

End Render.

(** ** Main loop (lines 156-190)

    The window, the event queue and the clock are pygame's.  A run is
    modelled by the values [clock.tick(FPS)] returned, one per frame, in
    milliseconds; the loop ends when the list does (the QUIT event). *)

Module Driver.

Import ListNotations.

Definition N_PARTICLES : nat := 300.

(** Line 162: [[SnowParticle() for _ in range(n)]]. *)
Fixpoint make_particles (n : nat) : Rand (list particle) :=
  match n with
  | O => ret []
  | S k => p <- init ;; ps <- make_particles k ;; ret (p :: ps)
  end.

(** Lines 180-181: [for p in particles: p.update(dt, t)]. *)
Fixpoint update_all (ps : list particle) (dt t : R)
  : Rand (list particle) :=
  match ps with
  | [] => ret []
  | p :: rest =>
      p' <- update p dt t ;;
      rest' <- update_all rest dt t ;;
      ret (p' :: rest')
  end.

(** The loop state: the particle list and the global time [t]. *)
Record sim : Type := mkSim {
  particles : list particle;
  clock_t : R
}.

(** Lines 162-163. *)
Definition start : Rand sim :=
  ps <- make_particles N_PARTICLES ;;
  ret (mkSim ps 0.0).

(** One pass of the loop body, lines 167-181, for a clock reading of [ms]
    milliseconds.  Line 176 draws one random number per frame for a
    [gust] that is never used; the draw itself is kept. *)
Definition frame (ms : Z) (st : sim) : Rand sim :=
  let dt := IZR ms / 1000.0 in
  let t := clock_t st + dt in
  let base_wind := sin (t * 0.4) * 25 in
  u <- random ;;
  let gust := (u - 0.5) * 10 in
  let wind := base_wind + gust in
  ps <- update_all (particles st) dt t ;;
  ret (mkSim ps t).

(** The loop, lines 166-188. *)
Fixpoint run (ticks : list Z) (st : sim) : Rand sim :=
  match ticks with
  | [] => ret st
  | ms :: rest => st1 <- frame ms st ;; run rest st1
  end.

(** [main], lines 156-188. *)
Definition main (ticks : list Z) : Rand sim :=
  st <- start ;; run ticks st.

(** Lines 185-186: what one frame draws. *)
Definition render (st : sim) : list Render.sprite :=
  List.map Render.draw (particles st).

End Driver.

(** ** Auxiliary notions used by the properties below (not in the source) *)

Module Aux.

(** [n ^ (n >> s)], the two mixing steps of [hash01] (lines 24, 25). *)
Definition xorshift (s n : Z) : Z := Z.lxor n (Z.shiftr n s).

(** Its inverse on 32-bit values when [3 * s >= 32]. *)
Definition unxorshift (s n : Z) : Z :=
  Z.lxor (Z.lxor n (Z.shiftr n s)) (Z.shiftr (Z.shiftr n s) s).

(** Undoes lines 24-25; 1406485665 is the inverse of 1274126177 modulo
    [2 ^ 32]. *)
Definition unmix01_bits (n : Z) : Z :=
  unxorshift 13 ((unxorshift 16 n * 1406485665) mod 2 ^ 32).

(** Solves line 23 for [i]; 2923004241 is the inverse of 374761393
    modulo [2 ^ 32]. *)
Definition unhash01_bits (n seed : Z) : Z :=
  ((unmix01_bits n - seed * 668265263) * 2923004241) mod 2 ^ 32.

(** [g'] is [g] after some draws: the same answers, a later cursor. *)
Definition later (g g' : rng) : Prop :=
  unit_draw g' = unit_draw g /\ int_draw g' = int_draw g /\
  (cursor g <= cursor g')%nat.

(** The parameters a particle keeps between two resets, as [reset]
    derives them from the depth (lines 50-69). *)
Definition params_consistent (self : particle) : Prop :=
  0 <= depth self < 1 /\
  size self = 1 + depth self * 2.5 /\
  alpha self = int (70 + depth self * 185) /\
  gravity self = 30 + depth self * 80 /\
  sway_amp self = 40 + depth self * 70 /\
  0.25 <= sway_speed self < 1.05 /\
  drag self = 1.6 - depth self * 0.6 /\
  (0 <= seed self <= 10000)%Z.

(** The sum of the clock readings of a run. *)
Definition total_ms (ticks : list Z) : Z := List.fold_right Z.add 0%Z ticks.

End Aux.

(** ** More sample particles *)

Module MoreSamples.

(** The mid-screen sample lifted to the top margin, [y = -60], and
    rising. *)
Definition p_high : particle :=
  mkParticle 450 (-60) 0.5 2.25 162 70 0 (-100) 75 0.65 1.3 0.

End MoreSamples.

(** * Properties *)

(** ** Noise primitive *)

Section NoiseFacts.

Lemma land_mask32 (n : Z) : Z.land n 0xFFFFFFFF = (n mod 2 ^ 32)%Z.
Proof.
  change 0xFFFFFFFF%Z with (Z.ones 32).
  apply Z.land_ones. lia.
Qed.

Lemma hash01_bits_range (i seed : Z) :
  (0 <= hash01_bits i seed <= 0xFFFFFFFF)%Z.
Proof.
  unfold hash01_bits. cbv zeta.
  rewrite (land_mask32 (Z.lxor _ _)).
  match goal with
  | |- (0 <= ?n mod _ <= _)%Z =>
      pose proof (Z.mod_pos_bound n (2 ^ 32) ltac:(lia))
  end.
  lia.
Qed.

Lemma hash01_bounds (i seed : Z) : 0 <= hash01 i seed <= 1.
Proof.
  unfold hash01.
  destruct (hash01_bits_range i seed) as [Hlo Hhi].
  apply IZR_le in Hlo. apply IZR_le in Hhi.
  split.
  - apply Rmult_le_reg_r with (r := IZR 0xFFFFFFFF); [lra|].
    unfold Rdiv. rewrite Rmult_assoc, Rinv_l by lra. lra.
  - apply Rmult_le_reg_r with (r := IZR 0xFFFFFFFF); [lra|].
    unfold Rdiv. rewrite Rmult_assoc, Rinv_l by lra. lra.
Qed.

Lemma hash01_one_iff (i seed : Z) :
  hash01 i seed = 1 <-> hash01_bits i seed = 0xFFFFFFFF%Z.
Proof.
  unfold hash01. split; intros H.
  - apply eq_IZR.
    apply Rmult_eq_reg_r with (r := / IZR 0xFFFFFFFF).
    + rewrite Rinv_r by lra. exact H.
    + apply Rinv_neq_0_compat. lra.
  - rewrite H. field.
Qed.

(** At an integer abscissa the blend weight is zero. *)
Lemma smoothstep_0 : smoothstep 0 = 0.
Proof. unfold smoothstep. ring. Qed.

Lemma smoothstep_1 : smoothstep 1 = 1.
Proof. unfold smoothstep. ring. Qed.

Lemma value_noise_1d_at_int (k seed : Z) :
  value_noise_1d (IZR k) seed = hash01 k seed.
Proof.
  unfold value_noise_1d. cbv zeta.
  rewrite ZfloorZ.
  replace (IZR k - IZR k) with 0 by ring.
  rewrite smoothstep_0. ring.
Qed.

(** C4 as stated fails: the hash of [i = 1034621878], [seed = 0] mixes to
    [0xFFFFFFFF], whose quotient by [0xFFFFFFFF] is exactly 1, so the
    result is not strictly below 1. *)
Lemma hash01_reaches_one :
  hash01_bits 1034621878 0 = 0xFFFFFFFF%Z /\
  hash01 1034621878 0 = 1 /\
  ~ (0 <= hash01 1034621878 0 < 1).
Proof.
  assert (Hb : hash01_bits 1034621878 0 = 0xFFFFFFFF%Z)
    by (vm_compute; reflexivity).
  assert (H1 : hash01 1034621878 0 = 1) by (apply hash01_one_iff; exact Hb).
  repeat split; trivial.
  rewrite H1. lra.
Qed.

(** C4, amended: for all integers [i] and [seed], [hash01 i seed] lies in
    the closed interval [0, 1]; it equals 1 exactly when the mixed 32-bit
    value is [0xFFFFFFFF], and is strictly below 1 otherwise. *)
Theorem hash01_closed_unit_interval (i seed : Z) :
  0 <= hash01 i seed <= 1 /\
  (hash01 i seed = 1 <-> hash01_bits i seed = 0xFFFFFFFF%Z) /\
  (hash01_bits i seed <> 0xFFFFFFFF%Z <-> hash01 i seed < 1).
Proof.
  pose proof (hash01_bounds i seed) as Hb.
  pose proof (hash01_one_iff i seed) as Hi.
  repeat split; try tauto; try lra.
  - intros Hne. destruct Hb as [_ [Hlt | Heq]]; [exact Hlt|]. tauto.
  - intros Hlt Heq. apply Hi in Heq. lra.
Qed.

(** C5: [value_noise_1d t seed] is the reference blend
    [a * (1 - u) + b * u] of the hashes at [floor t] and [floor t + 1]
    with [u = smoothstep (t - floor t)]; at every integer [t = k] it is
    [hash01 k seed] exactly. *)
Theorem value_noise_1d_blend :
  (forall (t : R) (seed : Z),
      value_noise_1d t seed = Reference.value_noise_1d t seed) /\
  (forall k seed : Z, value_noise_1d (IZR k) seed = hash01 k seed).
Proof.
  split.
  - intros t seed. reflexivity.
  - exact value_noise_1d_at_int.
Qed.

End NoiseFacts.

(** ** Wind field *)

Section WindFacts.

(** The float literals [1.0] and [0.0] are the reals 1 and 0. *)
Lemma float_1 : 1.0 = 1.
Proof. lra. Qed.

Lemma float_0 : 0.0 = 0.
Proof. lra. Qed.

(** C1: for all real [t], [y], [depth] and integer [seed], [wind_field]
    returns exactly the pair [(ax, ay)] of the reference formulas, with
    the factors 200, 220, 0.35 and the 0.3/0.7 and 0.4/0.6 splits. *)
Theorem wind_field_reference (t y depth : R) (seed : Z) :
  wind_field t y depth seed = Reference.wind_field t y depth seed.
Proof.
  unfold wind_field, Reference.wind_field, HEIGHT, Reference.SCREEN_HEIGHT.
  cbv zeta. rewrite float_1, float_0. f_equal; ring.
Qed.

End WindFacts.

(** ** The random source *)

Section RandomFacts.

Lemma rng_ok_advance (g : rng) : rng_ok g -> rng_ok (advance g).
Proof. intros H n. exact (H n). Qed.

Lemma random_range (g : rng) : rng_ok g -> 0 <= fst (random g) < 1.
Proof. intros H. exact (H (cursor g)). Qed.

Lemma uniform_eq (a b : R) (g : rng) :
  uniform a b g = (a + (b - a) * unit_draw g (cursor g), advance g).
Proof. reflexivity. Qed.

Lemma uniform_range (b : R) (g : rng) :
  rng_ok g -> 0 < b -> 0 <= fst (uniform 0 b g) < b.
Proof.
  intros H Hb. rewrite uniform_eq. cbn [fst].
  pose proof (H (cursor g)) as Hu. nra.
Qed.

Lemma randint_range (a b : Z) (g : rng) :
  (a <= b)%Z -> (a <= fst (randint a b g) <= b)%Z.
Proof.
  intros Hab. unfold randint. cbn [fst].
  pose proof (Z.mod_pos_bound (int_draw g (cursor g)) (b - a + 1)
                ltac:(lia)).
  lia.
Qed.

End RandomFacts.

(** ** Reset *)

Section ResetFacts.

Lemma reset_eq (x0 y0 : R) (g : rng) :
  reset x0 y0 g =
  (let d := unit_draw g (cursor g) in
   let r := unit_draw g (S (cursor g)) in
   let s := (0 + int_draw g (S (S (cursor g))) mod (10000 - 0 + 1))%Z in
   mkParticle x0 y0 d (1 + d * 2.5) (int (70 + d * 185)) (30 + d * 80)
     0.0 (20 + d * 150) (40 + d * 70) (0.25 + r * 0.8) (1.6 - d * 0.6) s,
   advance (advance (advance g))).
Proof. reflexivity. Qed.

Lemma int_nonneg (r : R) : 0 <= r -> int r = Zfloor r.
Proof.
  intros Hr. unfold int. destruct (Rle_dec 0 r); [reflexivity | lra].
Qed.

Lemma reset_position (x0 y0 : R) (g : rng) :
  x (fst (reset x0 y0 g)) = x0 /\ y (fst (reset x0 y0 g)) = y0.
Proof. rewrite reset_eq. split; reflexivity. Qed.

Lemma reset_depth_consistent (x0 y0 : R) (g : rng) :
  rng_ok g -> depth_consistent (fst (reset x0 y0 g)).
Proof.
  intros Hg. rewrite reset_eq. cbv zeta. cbn [fst].
  pose proof (Hg (cursor g)) as Hd.
  pose proof (Hg (S (cursor g))) as Hr.
  pose proof (Z.mod_pos_bound (int_draw g (S (S (cursor g)))) 10001
                ltac:(lia)) as Hs.
  unfold depth_consistent.
  cbn [depth size alpha gravity vx vy sway_amp sway_speed drag seed].
  change (10000 - 0 + 1)%Z with 10001%Z.
  repeat split; try reflexivity; try lra; try lia.
Qed.

Lemma reset_depth_drag_inv (x0 y0 : R) (g : rng) :
  rng_ok g -> depth_drag_inv (fst (reset x0 y0 g)).
Proof.
  intros Hg. destruct (reset_depth_consistent x0 y0 g Hg)
    as (Hd & _ & _ & _ & _ & _ & _ & _ & Hdrag & _).
  unfold depth_drag_inv. rewrite Hdrag. lra.
Qed.

End ResetFacts.

(** ** Update: recycling and wrap *)

Section UpdateFacts.

Lemma reenter_eq (y0 : R) (g : rng) :
  reenter y0 g =
  reset (fst (uniform 0 WIDTH g)) y0 (snd (uniform 0 WIDTH g)).
Proof. reflexivity. Qed.

Lemma reenter_y (y0 : R) (g : rng) : y (fst (reenter y0 g)) = y0.
Proof. reflexivity. Qed.

Lemma reenter_x (y0 : R) (g : rng) :
  rng_ok g -> 0 <= x (fst (reenter y0 g)) < WIDTH.
Proof.
  intros Hg. rewrite reenter_eq.
  destruct (reset_position (fst (uniform 0 WIDTH g)) y0
              (snd (uniform 0 WIDTH g))) as [Hx _].
  rewrite Hx. apply uniform_range; [exact Hg | unfold WIDTH; lra].
Qed.

Lemma recycle_below (q : particle) (g : rng) :
  y q > HEIGHT + 20 -> recycle q g = reenter (-20) g.
Proof.
  intros Hy. unfold recycle, bind at 1.
  destruct (Rgt_dec (y q) (HEIGHT + 20)) as [_ | Hn]; [| contradiction].
  destruct (reenter (-20) g) as [q1 g1] eqn:E.
  assert (Hy1 : y q1 = -20)
    by (change q1 with (fst (q1, g1)); rewrite <- E; apply reenter_y).
  destruct (Rlt_dec (y q1) (-60)) as [Hlt | _]; [lra | reflexivity].
Qed.

Lemma recycle_above (q : particle) (g : rng) :
  y q < -60 -> recycle q g = reenter (HEIGHT + 20) g.
Proof.
  intros Hy. unfold recycle, bind at 1.
  destruct (Rgt_dec (y q) (HEIGHT + 20)) as [Hgt | _];
    [unfold HEIGHT in Hgt; lra |].
  unfold ret at 1.
  destruct (Rlt_dec (y q) (-60)) as [_ | Hn]; [reflexivity | lra].
Qed.

Lemma recycle_inside (q : particle) (g : rng) :
  -60 <= y q <= HEIGHT + 20 -> recycle q g = (q, g).
Proof.
  intros [Hlo Hhi]. unfold recycle, bind at 1.
  destruct (Rgt_dec (y q) (HEIGHT + 20)) as [Hgt | _]; [lra |].
  unfold ret at 1.
  destruct (Rlt_dec (y q) (-60)) as [Hlt | _]; [lra | reflexivity].
Qed.

Lemma wrap_inside (q : particle) :
  -50 <= x q <= WIDTH + 50 -> wrap q = q.
Proof.
  intros [Hlo Hhi]. unfold wrap.
  destruct (Rlt_dec (x q) (-50)); [lra |].
  destruct (Rgt_dec (x q) (WIDTH + 50)); [lra | reflexivity].
Qed.

Lemma wrap_left (q : particle) :
  x q < -50 -> wrap q = set_x q (WIDTH + 50).
Proof.
  intros H. unfold wrap.
  destruct (Rlt_dec (x q) (-50)); [reflexivity | lra].
Qed.

Lemma wrap_right (q : particle) :
  x q > WIDTH + 50 -> wrap q = set_x q (-50).
Proof.
  intros H. unfold wrap.
  destruct (Rlt_dec (x q) (-50)); [unfold WIDTH in H; lra |].
  destruct (Rgt_dec (x q) (WIDTH + 50)); [reflexivity | lra].
Qed.

Lemma wrap_y (q : particle) : y (wrap q) = y q.
Proof.
  unfold wrap.
  destruct (Rlt_dec (x q) (-50)); [reflexivity |].
  destruct (Rgt_dec (x q) (WIDTH + 50)); reflexivity.
Qed.

Lemma wrap_x_range (q : particle) : -50 <= x (wrap q) <= WIDTH + 50.
Proof.
  unfold wrap, WIDTH.
  destruct (Rlt_dec (x q) (-50)); [cbn [set_x x]; lra |].
  destruct (Rgt_dec (x q) (900 + 50)); [cbn [set_x x]; lra | lra].
Qed.

Lemma update_eq (p : particle) (dt t : R) (g : rng) :
  update p dt t g =
  (wrap (fst (recycle (integrate p dt t) g)),
   snd (recycle (integrate p dt t) g)).
Proof.
  unfold update, bind.
  destruct (recycle (integrate p dt t) g) as [q g1]. reflexivity.
Qed.

End UpdateFacts.

(** ** Update: the integration step *)

Section IntegrateFacts.

Lemma Rmax_0_0 : Rmax 0 0 = 0.
Proof. unfold Rmax. destruct (Rle_dec 0 0); reflexivity. Qed.

Lemma hash01_0_0 : hash01 0 0 = 0.
Proof.
  unfold hash01.
  replace (hash01_bits 0 0) with 0%Z by (vm_compute; reflexivity).
  unfold Rdiv. ring.
Qed.

Lemma value_noise_1d_0_0 : value_noise_1d 0 0 = 0.
Proof.
  change (value_noise_1d 0 0) with (value_noise_1d (IZR 0) 0).
  rewrite value_noise_1d_at_int. exact hash01_0_0.
Qed.

(** With a zero step the factor is exactly 1. *)
Lemma damp_dt0 (p : particle) : damp p 0 = 1.
Proof.
  unfold damp. rewrite Rmult_0_r, float_1, float_0.
  rewrite Rmax_right; lra.
Qed.

(** A step that is small for the drag leaves the factor unclamped. *)
Lemma damp_unclamped (p : particle) (dt : R) :
  drag p * dt <= 1 -> damp p dt = 1 - drag p * dt.
Proof.
  intros H. unfold damp. rewrite float_1, float_0.
  rewrite Rmax_right; lra.
Qed.

Lemma damp_unit_interval (p : particle) (dt : R) :
  0 < drag p -> 0 <= dt -> 0 <= damp p dt <= 1.
Proof.
  intros Hd Hdt. unfold damp. rewrite float_1, float_0.
  assert (0 <= drag p * dt) by nra.
  split.
  - apply Rmax_l.
  - apply Rmax_lub; lra.
Qed.

Lemma integrate_dt0 (p : particle) (t : R) : integrate p 0 t = p.
Proof.
  unfold integrate. cbv zeta. rewrite damp_dt0.
  destruct p. cbn [x y depth size alpha gravity vx vy sway_amp sway_speed
                   drag seed].
  f_equal; ring.
Qed.

Lemma integrate_frame (p : particle) (dt t : R) :
  depth (integrate p dt t) = depth p /\
  size (integrate p dt t) = size p /\
  alpha (integrate p dt t) = alpha p /\
  gravity (integrate p dt t) = gravity p /\
  sway_amp (integrate p dt t) = sway_amp p /\
  sway_speed (integrate p dt t) = sway_speed p /\
  drag (integrate p dt t) = drag p /\
  seed (integrate p dt t) = seed p.
Proof. repeat split. Qed.

(** At [t = 0] and for a particle of seed 0 the gust vanishes and both
    noise samples are [hash01 0 0 = 0]; the forces are then explicit. *)
Lemma integrate_t0_seed0 (p : particle) (dt : R) :
  seed p = 0%Z ->
  integrate p dt 0 =
  (let ax := (0.5 - depth p) * (-70 * (0.4 + 0.6 * (1 - y p / HEIGHT)))
             - sway_amp p in
   let vx2 := (vx p + ax * dt) * damp p dt in
   let vy2 := (vy p + gravity p * dt) * damp p dt in
   mkParticle (x p + vx2 * dt) (y p + vy2 * dt) (depth p)
     (size p) (alpha p) (gravity p) vx2 vy2 (sway_amp p)
     (sway_speed p) (drag p) (seed p)).
Proof.
  intros Hs. unfold integrate, wind_field. rewrite Hs. cbv zeta.
  cbn [fst snd].
  rewrite !Rmult_0_l, Rplus_0_l, sin_0, value_noise_1d_0_0.
  rewrite float_0, float_1, Rmax_0_0.
  unfold HEIGHT. f_equal; lra.
Qed.

End IntegrateFacts.

(** ** Invariants of [update] *)

Section Invariants.

Lemma recycle_cases (q : particle) (g : rng) :
  (-60 <= y q <= HEIGHT + 20 /\ recycle q g = (q, g)) \/
  (y q > HEIGHT + 20 /\ recycle q g = reenter (-20) g) \/
  (y q < -60 /\ recycle q g = reenter (HEIGHT + 20) g).
Proof.
  destruct (Rgt_dec (y q) (HEIGHT + 20)) as [Hgt | Hle].
  - right. left. split; [exact Hgt | apply recycle_below; exact Hgt].
  - destruct (Rlt_dec (y q) (-60)) as [Hlt | Hge].
    + right. right. split; [exact Hlt | apply recycle_above; exact Hlt].
    + left. assert (Hin : -60 <= y q <= HEIGHT + 20) by lra.
      split; [exact Hin | apply recycle_inside; exact Hin].
Qed.

Lemma recycle_y_range (q : particle) (g : rng) :
  -60 <= y (fst (recycle q g)) <= HEIGHT + 20.
Proof.
  destruct (recycle_cases q g) as [[Hin E] | [[_ E] | [_ E]]]; rewrite E.
  - exact Hin.
  - rewrite reenter_y. unfold HEIGHT. lra.
  - rewrite reenter_y. unfold HEIGHT. lra.
Qed.

(** Whatever the step did, [update] leaves the particle in the box. *)
Lemma update_in_box (p : particle) (dt t : R) (g : rng) :
  in_box (fst (update p dt t g)).
Proof.
  rewrite update_eq. cbn [fst]. split.
  - rewrite wrap_y. apply recycle_y_range.
  - apply wrap_x_range.
Qed.

Lemma init_eq (g : rng) :
  init g =
  reset (fst (uniform 0 WIDTH g)) (fst (uniform 0 HEIGHT (advance g)))
    (advance (advance g)).
Proof. reflexivity. Qed.

Lemma init_in_box (g : rng) : rng_ok g -> in_box (fst (init g)).
Proof.
  intros Hg. rewrite init_eq.
  pose proof (uniform_range WIDTH g Hg ltac:(unfold WIDTH; lra)) as Hx.
  pose proof (uniform_range HEIGHT (advance g) (rng_ok_advance g Hg)
                ltac:(unfold HEIGHT; lra)) as Hy.
  match goal with
  | |- in_box (fst (reset ?a ?b ?h)) =>
      destruct (reset_position a b h) as [Ex Ey]
  end.
  unfold in_box. rewrite Ex, Ey. lra.
Qed.

Lemma reachable_in_box (p : particle) : reachable p -> in_box p.
Proof.
  intros H. destruct H as [g Hg | q dt t g _ _].
  - apply init_in_box. exact Hg.
  - apply update_in_box.
Qed.

Lemma set_x_same (q : particle) (v : R) :
  x (set_x q v) = v /\ same_but_x (set_x q v) q.
Proof. unfold same_but_x. repeat split. Qed.

Lemma wrap_depth_drag (q : particle) :
  depth (wrap q) = depth q /\ drag (wrap q) = drag q.
Proof.
  unfold wrap.
  destruct (Rlt_dec (x q) (-50)); [split; reflexivity |].
  destruct (Rgt_dec (x q) (WIDTH + 50)); split; reflexivity.
Qed.

Lemma reenter_depth_drag_inv (y0 : R) (g : rng) :
  rng_ok g -> depth_drag_inv (fst (reenter y0 g)).
Proof.
  intros Hg. rewrite reenter_eq. apply reset_depth_drag_inv.
  rewrite uniform_eq. cbn [snd]. apply rng_ok_advance. exact Hg.
Qed.

Lemma init_depth_drag_inv (g : rng) :
  rng_ok g -> depth_drag_inv (fst (init g)).
Proof.
  intros Hg. rewrite init_eq. apply reset_depth_drag_inv.
  apply rng_ok_advance, rng_ok_advance. exact Hg.
Qed.

Lemma update_depth_drag_inv (p : particle) (dt t : R) (g : rng) :
  rng_ok g -> depth_drag_inv p -> depth_drag_inv (fst (update p dt t g)).
Proof.
  intros Hg Hp. rewrite update_eq. cbn [fst]. unfold depth_drag_inv.
  destruct (wrap_depth_drag (fst (recycle (integrate p dt t) g)))
    as [Ed Er].
  rewrite Ed, Er.
  fold (depth_drag_inv (fst (recycle (integrate p dt t) g))).
  destruct (recycle_cases (integrate p dt t) g)
    as [[_ E] | [[_ E] | [_ E]]]; rewrite E.
  - cbn [fst]. exact Hp.
  - apply reenter_depth_drag_inv. exact Hg.
  - apply reenter_depth_drag_inv. exact Hg.
Qed.

End Invariants.

(** ** Sample runs *)

Section SampleRuns.

Import Samples.

Lemma g_half_ok : rng_ok g_half.
Proof. intros n. cbn [g_half unit_draw]. lra. Qed.

Lemma g_top_ok : rng_ok g_top.
Proof. intros n. cbn [g_top unit_draw]. lra. Qed.

Ltac sample_integrate p :=
  rewrite integrate_t0_seed0 by reflexivity;
  cbv zeta;
  rewrite damp_unclamped by (cbn [p drag]; lra);
  unfold HEIGHT, WIDTH;
  cbn [p x y depth size alpha gravity vx vy sway_amp sway_speed drag seed].

(** [p_low], one tenth of a second later, is below the bottom margin. *)
Lemma p_low_falls_out : y (integrate p_low 0.1 0) > HEIGHT + 20.
Proof. sample_integrate p_low. lra. Qed.

(** [p_left], one tenth of a second later, is left of the margin and
    still between the vertical margins. *)
Lemma p_left_drifts_out :
  -60 <= y (integrate p_left 0.1 0) <= HEIGHT + 20 /\
  x (integrate p_left 0.1 0) < -50.
Proof. repeat split; sample_integrate p_left; lra. Qed.

Lemma p_right_drifts_out :
  -60 <= y (integrate p_right 0.1 0) <= HEIGHT + 20 /\
  x (integrate p_right 0.1 0) > WIDTH + 50.
Proof. repeat split; sample_integrate p_right; lra. Qed.

(** [p_mid] stepped backwards by one second. *)
Lemma p_mid_backwards :
  integrate p_mid (-1) 0 =
  mkParticle 277.5 242.5 0.5 2.25 162 70 172.5 57.5 75 0.65 1.3 0.
Proof.
  sample_integrate p_mid. f_equal; lra.
Qed.

Lemma int_208_75 : int (70 + 0.75 * 185) = 208%Z.
Proof.
  rewrite int_nonneg by lra. apply Zfloor_eq. lra.
Qed.

Lemma init_g_half : fst (init g_half) = p_mid.
Proof.
  rewrite init_eq, reset_eq. cbv zeta. cbn [fst].
  rewrite !uniform_eq. cbn [fst g_half unit_draw int_draw cursor advance].
  unfold p_mid, WIDTH, HEIGHT.
  assert (Ha : int (70 + 0.5 * 185) = 162%Z).
  { rewrite int_nonneg by lra. apply Zfloor_eq. lra. }
  rewrite Ha. f_equal; lra.
Qed.

End SampleRuns.

(** ** Reset and recycling *)

Section ResetClaims.

Import Samples.

(** C3 as stated fails twice on the draws of [g_top] (depth 0.75, integer
    10000): [alpha] is 208, the truncation of 208.75, while every integer
    nearest to 208.75, clamped to [0, 255], is 209; and [seed] is 10000,
    outside [0, 10000). *)
Lemma reset_truncates_alpha_seed_inclusive :
  let p := fst (reset 450 (-20) g_top) in
  depth p = 0.75 /\
  alpha p = 208%Z /\
  (forall z : Z, Reference.nearest_int (70 + depth p * 185) z ->
                 alpha p <> Z.max 0 (Z.min 255 z)) /\
  seed p = 10000%Z /\
  ~ (0 <= seed p < 10000)%Z.
Proof.
  cbv zeta. rewrite reset_eq. cbv zeta.
  cbn [fst depth alpha seed g_top unit_draw int_draw cursor].
  rewrite int_208_75.
  change (0 + 10000 mod (10000 - 0 + 1))%Z with 10000%Z.
  repeat split; try reflexivity; try lia.
  intros z Hz Heq. unfold Reference.nearest_int in Hz.
  assert (Hb : 208 < IZR z < 210).
  { unfold Rabs in Hz.
    destruct (Rcase_abs (70 + 0.75 * 185 - IZR z)); lra. }
  assert (H1 : (208 < z)%Z) by (apply lt_IZR; lra).
  assert (H2 : (z < 210)%Z) by (apply lt_IZR; lra).
  lia.
Qed.

(** C3, amended: after every [reset] (the one of [__init__] and the two
    of the vertical recycling), with [d] the freshly drawn depth in
    [0, 1) and [r] the next draw in [0, 1): size = 1 + d*2.5; alpha is
    the integer part (truncation) of 70 + d*185, which lies in
    [70, 254] and needs no clamping; gravity = 30 + d*80; vx = 0;
    vy = 20 + d*150; sway_amp = 40 + d*70; sway_speed = 0.25 + r*0.8;
    drag = 1.6 - d*0.6; seed is a fresh integer of the closed range
    [0, 10000]; and [x], [y] are the arguments. *)
Theorem reset_assigns (x0 y0 : R) (g : rng) :
  rng_ok g ->
  let p := fst (reset x0 y0 g) in
  let d := unit_draw g (cursor g) in
  let r := unit_draw g (S (cursor g)) in
  0 <= d < 1 /\ 0 <= r < 1 /\
  x p = x0 /\ y p = y0 /\
  depth p = d /\
  size p = 1 + d * 2.5 /\
  alpha p = Zfloor (70 + d * 185) /\ (70 <= alpha p <= 254)%Z /\
  gravity p = 30 + d * 80 /\
  vx p = 0 /\
  vy p = 20 + d * 150 /\
  sway_amp p = 40 + d * 70 /\
  sway_speed p = 0.25 + r * 0.8 /\
  drag p = 1.6 - d * 0.6 /\
  seed p = fst (randint 0 10000 (advance (advance g))) /\
  (0 <= seed p <= 10000)%Z.
Proof.
  intros Hg. cbv zeta. rewrite reset_eq. cbv zeta.
  cbn [fst x y depth size alpha gravity vx vy sway_amp sway_speed drag seed].
  pose proof (Hg (cursor g)) as Hd.
  pose proof (Hg (S (cursor g))) as Hr.
  pose proof (randint_range 0 10000 (advance (advance g)) ltac:(lia)) as Hs.
  rewrite int_nonneg by lra.
  pose proof (Zfloor_bound (70 + unit_draw g (cursor g) * 185)) as Hfl.
  assert (Hlo : (70 <= Zfloor (70 + unit_draw g (cursor g) * 185))%Z)
    by (apply Zfloor_lub; lra).
  assert (Hhi : (Zfloor (70 + unit_draw g (cursor g) * 185) < 255)%Z)
    by (apply lt_IZR; lra).
  rewrite float_0.
  repeat split; try reflexivity; try lra; try lia; apply Hs.
Qed.

Lemma reset_assigns_witness :
  rng_ok g_half /\
  depth (fst (reset 450 300 g_half)) = 0.5 /\
  gravity (fst (reset 450 300 g_half)) = 30 + 0.5 * 80 /\
  (70 <= alpha (fst (reset 450 300 g_half)) <= 254)%Z.
Proof.
  split; [exact g_half_ok |].
  pose proof (reset_assigns 450 300 g_half g_half_ok) as H.
  cbv zeta in H.
  destruct H as (_ & _ & _ & _ & Hd & _ & _ & Ha & Hgr & _).
  split; [exact Hd |]. split; [exact Hgr | exact Ha].
Defined.

(** C2: if the position-integration step of [update dt t] leaves
    [y > HEIGHT + 20], the particle is reset within that same update:
    [x] is the fresh draw [uniform 0 WIDTH], in [0, WIDTH); [y] is -20;
    a new depth is drawn and gravity, sway_amp, drag, size, alpha, the
    velocity and the seed are those [reset] derives from it. *)
Theorem update_resets_below (p : particle) (dt t : R) (g : rng) :
  rng_ok g ->
  y (integrate p dt t) > HEIGHT + 20 ->
  let p' := fst (update p dt t g) in
  update p dt t g =
    reset (fst (uniform 0 WIDTH g)) (-20) (snd (uniform 0 WIDTH g)) /\
  x p' = fst (uniform 0 WIDTH g) /\ 0 <= x p' < WIDTH /\
  y p' = -20 /\
  depth p' = unit_draw g (S (cursor g)) /\
  depth_consistent p'.
Proof.
  intros Hg Hy. cbv zeta.
  assert (E : update p dt t g = reenter (-20) g).
  { rewrite update_eq, recycle_below by exact Hy.
    rewrite wrap_inside.
    - destruct (reenter (-20) g); reflexivity.
    - pose proof (reenter_x (-20) g Hg). unfold WIDTH in *. lra. }
  rewrite E. pose proof (reenter_x (-20) g Hg) as Hx.
  rewrite reenter_eq in *.
  split; [reflexivity |]. split; [reflexivity |].
  split; [exact Hx |]. split; [reflexivity |]. split; [reflexivity |].
  apply reset_depth_consistent.
  rewrite uniform_eq. cbn [snd]. apply rng_ok_advance. exact Hg.
Qed.

Lemma update_resets_below_witness :
  rng_ok g_half /\
  y (integrate p_low 0.1 0) > HEIGHT + 20 /\
  y (fst (update p_low 0.1 0 g_half)) = -20 /\
  depth_consistent (fst (update p_low 0.1 0 g_half)).
Proof.
  split; [exact g_half_ok |]. split; [exact p_low_falls_out |].
  pose proof (update_resets_below p_low 0.1 0 g_half g_half_ok
                p_low_falls_out) as H.
  cbv zeta in H. destruct H as (_ & _ & _ & Hy & _ & Hc).
  split; [exact Hy | exact Hc].
Defined.

End ResetClaims.

(** ** Update: frame, zero step, negative step, invariants *)

Section UpdateClaims.

Import Samples.

(** C6: when the integration step of [update dt t] leaves the particle
    between the vertical margins (no reset) and [x < -50], the wrap sets
    [x] to exactly [WIDTH + 50] and changes nothing else: [y], the
    velocity, depth, size, alpha, gravity, sway_amp, sway_speed, drag and
    seed are those of the integrated state, and no random draw is made;
    symmetrically [x > WIDTH + 50] becomes exactly [-50]. *)
Theorem update_wrap_changes_only_x (p : particle) (dt t : R) (g : rng) :
  -60 <= y (integrate p dt t) <= HEIGHT + 20 ->
  (x (integrate p dt t) < -50 ->
   x (fst (update p dt t g)) = WIDTH + 50 /\
   same_but_x (fst (update p dt t g)) (integrate p dt t) /\
   snd (update p dt t g) = g) /\
  (x (integrate p dt t) > WIDTH + 50 ->
   x (fst (update p dt t g)) = -50 /\
   same_but_x (fst (update p dt t g)) (integrate p dt t) /\
   snd (update p dt t g) = g).
Proof.
  intros Hy. rewrite update_eq, recycle_inside by exact Hy.
  cbn [fst snd]. split; intros Hx.
  - rewrite wrap_left by exact Hx.
    destruct (set_x_same (integrate p dt t) (WIDTH + 50)) as [E F].
    split; [exact E |]. split; [exact F | reflexivity].
  - rewrite wrap_right by exact Hx.
    destruct (set_x_same (integrate p dt t) (-50)) as [E F].
    split; [exact E |]. split; [exact F | reflexivity].
Qed.

Lemma update_wrap_changes_only_x_witness :
  (x (integrate p_left 0.1 0) < -50 /\
   x (fst (update p_left 0.1 0 g_half)) = WIDTH + 50 /\
   vx (fst (update p_left 0.1 0 g_half)) = vx (integrate p_left 0.1 0)) /\
  (x (integrate p_right 0.1 0) > WIDTH + 50 /\
   x (fst (update p_right 0.1 0 g_half)) = -50 /\
   vx (fst (update p_right 0.1 0 g_half)) = vx (integrate p_right 0.1 0)).
Proof.
  destruct p_left_drifts_out as [Hyl Hxl].
  destruct p_right_drifts_out as [Hyr Hxr].
  split.
  - destruct (update_wrap_changes_only_x p_left 0.1 0 g_half Hyl)
      as [Hl _].
    destruct (Hl Hxl) as (Ex & Es & _).
    split; [exact Hxl |]. split; [exact Ex |]. apply Es.
  - destruct (update_wrap_changes_only_x p_right 0.1 0 g_half Hyr)
      as [_ Hr].
    destruct (Hr Hxr) as (Ex & Es & _).
    split; [exact Hxr |]. split; [exact Ex |]. apply Es.
Defined.

Lemma update_dt0 (p : particle) (t : R) (g : rng) :
  in_box p -> update p 0 t g = (p, g).
Proof.
  intros [Hy Hx]. rewrite update_eq, integrate_dt0.
  rewrite recycle_inside by exact Hy. cbn [fst snd].
  rewrite wrap_inside by exact Hx. reflexivity.
Qed.

Lemma updates_dt0 (p : particle) (ts : list R) (g : rng) :
  in_box p -> updates p (List.map (fun t => (0, t)) ts) g = (p, g).
Proof.
  intros Hp. induction ts as [| t ts IH].
  - reflexivity.
  - cbn [List.map updates]. unfold bind.
    rewrite update_dt0 by exact Hp. exact IH.
Qed.

(** C7 as stated fails: [reset] is a public method, and the particle
    that [reset 450 700] makes on the draws of [g_half] sits at
    [y = 700], below the bottom margin; a single call [update 0 0]
    recycles it, so its [y] becomes [-20]. *)
Lemma update_dt0_moves_outside_particle :
  y (fst (reset 450 700 g_half)) = 700 /\
  y (fst (update (fst (reset 450 700 g_half)) 0 0 g_half)) = -20 /\
  y (fst (updates (fst (reset 450 700 g_half))
            (List.map (fun t => (0, t)) (cons 0 nil)) g_half))
  <> y (fst (reset 450 700 g_half)).
Proof.
  set (p := fst (reset 450 700 g_half)).
  assert (Hy : y p = 700) by (apply reset_position).
  assert (Hu : y (fst (update p 0 0 g_half)) = -20).
  { rewrite update_eq, integrate_dt0.
    rewrite recycle_below by (rewrite Hy; unfold HEIGHT; lra).
    cbn [fst]. rewrite wrap_y. apply reenter_y. }
  split; [exact Hy |]. split; [exact Hu |].
  cbn [List.map updates]. unfold bind.
  destruct (update p 0 0 g_half) as [q g1].
  unfold ret. cbn [fst] in *. rewrite Hu, Hy. lra.
Qed.

(** C7, amended: for every particle inside the extended screen box
    ([-60 <= y <= HEIGHT + 20] and [-50 <= x <= WIDTH + 50]) and every
    sequence of global times, calling [update 0 t] along the sequence
    never changes [x], [y], [vx] or [vy]. *)
Theorem updates_dt0_fixed (p : particle) (ts : list R) (g : rng) :
  in_box p ->
  x (fst (updates p (List.map (fun t => (0, t)) ts) g)) = x p /\
  y (fst (updates p (List.map (fun t => (0, t)) ts) g)) = y p /\
  vx (fst (updates p (List.map (fun t => (0, t)) ts) g)) = vx p /\
  vy (fst (updates p (List.map (fun t => (0, t)) ts) g)) = vy p.
Proof.
  intros Hp. rewrite updates_dt0 by exact Hp.
  repeat split.
Qed.

Lemma updates_dt0_fixed_witness :
  in_box (fst (init g_half)) /\
  x (fst (updates (fst (init g_half))
            (List.map (fun t => (0, t)) (cons 0 (cons 1.5 (cons 7 nil))))
            g_top)) = x (fst (init g_half)).
Proof.
  split; [exact (init_in_box g_half g_half_ok) |].
  apply (updates_dt0_fixed (fst (init g_half))
           (cons 0 (cons 1.5 (cons 7 nil))) g_top
           (init_in_box g_half g_half_ok)).
Defined.

(** C10: after [update dt t] returns, for every prior state and every
    [dt >= 0], the position is inside the extended screen box:
    [-60 <= y <= HEIGHT + 20] and [-50 <= x <= WIDTH + 50]. *)
Theorem update_confines_position (p : particle) (dt t : R) (g : rng) :
  0 <= dt ->
  -60 <= y (fst (update p dt t g)) <= HEIGHT + 20 /\
  -50 <= x (fst (update p dt t g)) <= WIDTH + 50.
Proof.
  intros _. exact (update_in_box p dt t g).
Qed.

Lemma update_confines_position_witness :
  0 <= 0.1 /\
  -60 <= y (fst (update p_low 0.1 0 g_half)) <= HEIGHT + 20 /\
  -50 <= x (fst (update p_low 0.1 0 g_half)) <= WIDTH + 50.
Proof.
  assert (H : 0 <= 0.1) by lra.
  split; [exact H |].
  exact (update_confines_position p_low 0.1 0 g_half H).
Defined.

(** C9: depth in [0, 1) and drag > 0 hold after creation and are
    preserved by every [reset] and every [update]; hence the damping
    factor [max(0, 1 - drag*dt)] lies in [0, 1] for every [dt >= 0]. *)
Theorem depth_drag_invariant
    (g : rng) (p : particle) (x0 y0 dt t dt' : R) :
  rng_ok g -> depth_drag_inv p -> 0 <= dt' ->
  depth_drag_inv (fst (init g)) /\
  depth_drag_inv (fst (reset x0 y0 g)) /\
  depth_drag_inv (fst (update p dt t g)) /\
  0 <= damp p dt' <= 1 /\
  0 <= damp (fst (update p dt t g)) dt' <= 1.
Proof.
  intros Hg Hp Hdt.
  pose proof (update_depth_drag_inv p dt t g Hg Hp) as Hu.
  split; [apply init_depth_drag_inv; exact Hg |].
  split; [apply reset_depth_drag_inv; exact Hg |].
  split; [exact Hu |].
  split; apply damp_unit_interval; solve [apply Hp | apply Hu | exact Hdt].
Qed.

Lemma p_mid_depth_drag_inv : depth_drag_inv p_mid.
Proof. unfold depth_drag_inv. cbn [p_mid depth drag]. lra. Qed.

Lemma depth_drag_invariant_witness :
  rng_ok g_half /\ depth_drag_inv p_mid /\ 0 <= 0.1 /\
  depth_drag_inv (fst (update p_mid 0.1 0 g_half)) /\
  0 <= damp p_mid 0.1 <= 1.
Proof.
  assert (H : 0 <= 0.1) by lra.
  split; [exact g_half_ok |]. split; [exact p_mid_depth_drag_inv |].
  split; [exact H |].
  destruct (depth_drag_invariant g_half p_mid 450 300 0.1 0 0.1
              g_half_ok p_mid_depth_drag_inv H) as (_ & _ & Hu & Hd & _).
  split; [exact Hu | exact Hd].
Defined.

End UpdateClaims.

(** ** Negative time step *)

Section NegativeStep.

Import Samples.

(** C8 as stated fails: [update] with [dt = -1] on the mid-screen
    particle [p_mid] is not rejected; it returns, and the particle has
    moved from (450, 300) to (277.5, 242.5) with velocity
    (172.5, 57.5). *)
Lemma update_negative_dt_mutates :
  -1 < 0 /\
  update p_mid (-1) 0 g_half =
    (mkParticle 277.5 242.5 0.5 2.25 162 70 172.5 57.5 75 0.65 1.3 0,
     g_half) /\
  fst (update p_mid (-1) 0 g_half) <> p_mid.
Proof.
  assert (E : update p_mid (-1) 0 g_half =
              (mkParticle 277.5 242.5 0.5 2.25 162 70 172.5 57.5 75 0.65
                 1.3 0, g_half)).
  { rewrite update_eq, p_mid_backwards.
    rewrite recycle_inside by (cbn [y]; unfold HEIGHT; lra).
    cbn [fst snd].
    rewrite wrap_inside by (cbn [x]; unfold WIDTH; lra).
    reflexivity. }
  split; [lra |]. split; [exact E |].
  rewrite E. cbn [fst]. intros H.
  apply (f_equal x) in H. cbn [x p_mid] in H. lra.
Qed.

(** C8, amended: [update] does not validate [dt].  For every particle of
    positive drag and every negative [dt] it returns the state of the
    Euler step taken with that [dt]: the damping factor is
    [1 - drag*dt], which exceeds 1; the velocity is
    [(v + a*dt) * (1 - drag*dt)] and the position moves by
    [velocity * dt]; recycling and wrap then apply as usual, and a state
    that is still inside the box is returned as it is. *)
Theorem update_integrates_negative_dt
    (p : particle) (dt t : R) (g : rng) :
  dt < 0 -> 0 < drag p ->
  let ax := fst (wind_field t (y p) (depth p) (seed p))
            + (value_noise_1d (t * sway_speed p) (seed p) * 2 - 1)
              * sway_amp p in
  let ay := gravity p + snd (wind_field t (y p) (depth p) (seed p)) in
  let q := integrate p dt t in
  damp p dt = 1 - drag p * dt /\ 1 < damp p dt /\
  vx q = (vx p + ax * dt) * (1 - drag p * dt) /\
  vy q = (vy p + ay * dt) * (1 - drag p * dt) /\
  x q = x p + vx q * dt /\
  y q = y p + vy q * dt /\
  update p dt t g = (wrap (fst (recycle q g)), snd (recycle q g)) /\
  (in_box q -> update p dt t g = (q, g)).
Proof.
  intros Hdt Hdrag. cbv zeta.
  assert (Hneg : drag p * dt < 0) by nra.
  assert (Hd : damp p dt = 1 - drag p * dt)
    by (apply damp_unclamped; lra).
  split; [exact Hd |]. split; [lra |].
  split; [rewrite <- Hd; reflexivity |].
  split; [rewrite <- Hd; reflexivity |].
  split; [reflexivity |]. split; [reflexivity |].
  split; [apply update_eq |].
  intros [Hy Hx]. rewrite update_eq.
  rewrite recycle_inside by exact Hy. cbn [fst snd].
  rewrite wrap_inside by exact Hx. reflexivity.
Qed.

Lemma update_integrates_negative_dt_witness :
  -1 < 0 /\ 0 < drag p_mid /\ in_box (integrate p_mid (-1) 0) /\
  damp p_mid (-1) = 1 - drag p_mid * -1 /\
  update p_mid (-1) 0 g_half = (integrate p_mid (-1) 0, g_half).
Proof.
  assert (H1 : -1 < 0) by lra.
  assert (H2 : 0 < drag p_mid) by (cbn [p_mid drag]; lra).
  assert (H3 : in_box (integrate p_mid (-1) 0)).
  { rewrite p_mid_backwards. unfold in_box, HEIGHT, WIDTH. cbn [x y]. lra. }
  destruct (update_integrates_negative_dt p_mid (-1) 0 g_half H1 H2)
    as (Hd & _ & _ & _ & _ & _ & _ & Hu).
  split; [exact H1 |]. split; [exact H2 |]. split; [exact H3 |].
  split; [exact Hd | exact (Hu H3)].
Defined.

End NegativeStep.

(** * Further properties of the code *)

(** ** [smoothstep] and [hash01] *)

Section MixingFacts.

Import Aux.

Open Scope Z_scope.

Lemma high_bit_false (n k : Z) :
  0 <= n < 2 ^ 32 -> 32 <= k -> Z.testbit n k = false.
Proof.
  intros Hn Hk. rewrite <- (Z.mod_small n (2 ^ 32)) by exact Hn.
  apply Z.mod_pow2_bits_high. lia.
Qed.

Lemma small_of_bits (n : Z) :
  0 <= n -> (forall k, 32 <= k -> Z.testbit n k = false) ->
  0 <= n < 2 ^ 32.
Proof.
  intros Hn Hb. split; [exact Hn |].
  assert (E : n mod 2 ^ 32 = n).
  { apply Z.bits_inj'. intros k Hk.
    destruct (Z_lt_le_dec k 32) as [Hlt | Hge].
    - apply Z.mod_pow2_bits_low. lia.
    - rewrite Z.mod_pow2_bits_high by lia. symmetry. apply Hb. exact Hge. }
  rewrite <- E. apply Z.mod_pos_bound. lia.
Qed.

Lemma xorshift_range (s n : Z) :
  0 <= s -> 0 <= n < 2 ^ 32 -> 0 <= xorshift s n < 2 ^ 32.
Proof.
  intros Hs Hn. unfold xorshift. apply small_of_bits.
  - apply Z.lxor_nonneg. split; intros _; [apply Z.shiftr_nonneg |]; lia.
  - intros k Hk. rewrite Z.lxor_spec, Z.shiftr_spec by lia.
    rewrite !(high_bit_false n) by lia. reflexivity.
Qed.

Lemma unxorshift_range (s n : Z) :
  0 <= s -> 0 <= n < 2 ^ 32 -> 0 <= unxorshift s n < 2 ^ 32.
Proof.
  intros Hs Hn. unfold unxorshift. apply small_of_bits.
  - assert (0 <= Z.shiftr n s) by (apply Z.shiftr_nonneg; lia).
    assert (0 <= Z.shiftr (Z.shiftr n s) s)
      by (apply Z.shiftr_nonneg; lia).
    assert (0 <= Z.lxor n (Z.shiftr n s)) by (apply Z.lxor_nonneg; lia).
    apply Z.lxor_nonneg; lia.
  - intros k Hk. rewrite !Z.lxor_spec, !Z.shiftr_spec by lia.
    rewrite !(high_bit_false n) by lia. reflexivity.
Qed.

(** Bit [k] of either composition is bit [k] xor bit [k + 3s] of the
    argument, and the latter is beyond bit 31. *)
Ltac xorshift_bits n s :=
  apply Z.bits_inj'; intros k Hk;
  rewrite !Z.lxor_spec, !Z.shiftr_spec by lia;
  rewrite !Z.lxor_spec, !Z.shiftr_spec by lia;
  rewrite (high_bit_false n (k + s + s + s)) by lia;
  destruct (Z.testbit n k), (Z.testbit n (k + s)),
    (Z.testbit n (k + s + s)); reflexivity.

Lemma xorshift_unxorshift (s n : Z) :
  11 <= s -> 0 <= n < 2 ^ 32 -> xorshift s (unxorshift s n) = n.
Proof.
  intros Hs Hn. unfold xorshift, unxorshift. xorshift_bits n s.
Qed.

Lemma unxorshift_xorshift (s n : Z) :
  11 <= s -> 0 <= n < 2 ^ 32 -> unxorshift s (xorshift s n) = n.
Proof.
  intros Hs Hn. unfold xorshift, unxorshift. xorshift_bits n s.
Qed.

Lemma mulmod_inverse (c c' n : Z) :
  (c * c') mod 2 ^ 32 = 1 ->
  ((n * c) mod 2 ^ 32 * c') mod 2 ^ 32 = n mod 2 ^ 32.
Proof.
  intros H. rewrite Z.mul_mod_idemp_l by lia.
  rewrite <- Z.mul_assoc, <- Z.mul_mod_idemp_r, H by lia.
  f_equal. lia.
Qed.

(** [hash01_bits] as the composition of its four steps. *)
Lemma hash01_bits_eq (i seed : Z) :
  hash01_bits i seed =
  xorshift 16
    ((xorshift 13 ((i * 374761393 + seed * 668265263) mod 2 ^ 32)
      * 1274126177) mod 2 ^ 32).
Proof.
  unfold hash01_bits. cbv zeta. rewrite !land_mask32.
  fold (xorshift 13 ((i * 374761393 + seed * 668265263) mod 2 ^ 32)).
  fold (xorshift 16
          ((xorshift 13 ((i * 374761393 + seed * 668265263) mod 2 ^ 32)
            * 1274126177) mod 2 ^ 32)).
  apply Z.mod_small. apply xorshift_range; [lia |].
  apply Z.mod_pos_bound. lia.
Qed.

Lemma unmix_hash (i seed : Z) :
  unmix01_bits (hash01_bits i seed) =
  (i * 374761393 + seed * 668265263) mod 2 ^ 32.
Proof.
  rewrite hash01_bits_eq. unfold unmix01_bits.
  pose proof (Z.mod_pos_bound (i * 374761393 + seed * 668265263) (2 ^ 32)
                ltac:(lia)) as H0.
  set (n0 := (i * 374761393 + seed * 668265263) mod 2 ^ 32) in *.
  pose proof (xorshift_range 13 n0 ltac:(lia) H0) as H1.
  pose proof (Z.mod_pos_bound (xorshift 13 n0 * 1274126177) (2 ^ 32)
                ltac:(lia)) as H2.
  rewrite unxorshift_xorshift by (try lia; exact H2).
  rewrite mulmod_inverse by reflexivity.
  rewrite (Z.mod_small (xorshift 13 n0)) by exact H1.
  apply unxorshift_xorshift; [lia | exact H0].
Qed.

Lemma hash_unhash (n seed : Z) :
  0 <= n < 2 ^ 32 -> hash01_bits (unhash01_bits n seed) seed = n.
Proof.
  intros Hn. rewrite hash01_bits_eq. unfold unhash01_bits, unmix01_bits.
  pose proof (unxorshift_range 16 n ltac:(lia) Hn) as H1.
  pose proof (Z.mod_pos_bound (unxorshift 16 n * 1406485665) (2 ^ 32)
                ltac:(lia)) as H2.
  set (m2 := (unxorshift 16 n * 1406485665) mod 2 ^ 32) in *.
  pose proof (unxorshift_range 13 m2 ltac:(lia) H2) as H3.
  set (m3 := unxorshift 13 m2) in *.
  replace ((((m3 - seed * 668265263) * 2923004241) mod 2 ^ 32 * 374761393
            + seed * 668265263) mod 2 ^ 32) with m3.
  - unfold m3. rewrite xorshift_unxorshift by (try lia; exact H2).
    unfold m2. rewrite mulmod_inverse by reflexivity.
    rewrite Z.mod_small by exact H1.
    apply xorshift_unxorshift; [lia | exact Hn].
  - rewrite <- Z.add_mod_idemp_l by lia.
    rewrite mulmod_inverse by reflexivity.
    rewrite Z.add_mod_idemp_l by lia.
    replace (m3 - seed * 668265263 + seed * 668265263) with m3 by lia.
    symmetry. apply Z.mod_small. exact H3.
Qed.

(** Two hashes collide exactly when line 23 gives the same 32 bits. *)
Lemma hash01_bits_collide_iff (i j s s' : Z) :
  hash01_bits i s = hash01_bits j s' <->
  (i * 374761393 + s * 668265263) mod 2 ^ 32 =
  (j * 374761393 + s' * 668265263) mod 2 ^ 32.
Proof.
  split; intros H.
  - rewrite <- !unmix_hash. rewrite H. reflexivity.
  - rewrite !hash01_bits_eq. rewrite H. reflexivity.
Qed.

Lemma linear_cancel (c c' a b k : Z) :
  (c * c') mod 2 ^ 32 = 1 ->
  (a * c + k) mod 2 ^ 32 = (b * c + k) mod 2 ^ 32 ->
  a mod 2 ^ 32 = b mod 2 ^ 32.
Proof.
  intros Hc H.
  assert (E : forall u, ((u * c + k) mod 2 ^ 32 - k) mod 2 ^ 32
                        = (u * c) mod 2 ^ 32).
  { intros u. rewrite Zminus_mod_idemp_l. f_equal. lia. }
  rewrite <- (mulmod_inverse c c' a Hc), <- (mulmod_inverse c c' b Hc).
  rewrite <- (E a), <- (E b), H. reflexivity.
Qed.

Lemma hash01_eq_bits (i j s s' : Z) :
  hash01 i s = hash01 j s' <-> hash01_bits i s = hash01_bits j s'.
Proof.
  unfold hash01. split; intros H.
  - apply eq_IZR. apply Rmult_eq_reg_r with (r := (/ IZR 0xFFFFFFFF)%R).
    + exact H.
    + apply Rinv_neq_0_compat. apply not_0_IZR. lia.
  - rewrite H. reflexivity.
Qed.

End MixingFacts.

Section NoiseExtras.

Import Aux.

(** X1: on [0, 1] [smoothstep] is non-decreasing and stays in [0, 1];
    it is symmetric about the point (1/2, 1/2). *)
Theorem smoothstep_monotone_unit (a b : R) :
  0 <= a -> a <= b -> b <= 1 ->
  0 <= smoothstep a /\ smoothstep a <= smoothstep b /\ smoothstep b <= 1 /\
  smoothstep (1 - a) = 1 - smoothstep a.
Proof.
  intros Ha Hab Hb. unfold smoothstep.
  split; [apply Rmult_le_pos; nra |].
  split; [| split; [| ring]].
  2: { assert (E1 : 1 - b * b * (3 - 2 * b) = (1 - b) * (1 - b) * (1 + 2 * b))
         by ring.
       assert (0 <= (1 - b) * (1 - b) * (1 + 2 * b))
         by (apply Rmult_le_pos; nra).
       lra. }
  assert (E : b * b * (3 - 2 * b) - a * a * (3 - 2 * a)
              = (b - a) * (a * (3 - 2 * a - b) + b * (3 - 2 * b - a)))
    by ring.
  assert (0 <= a * (3 - 2 * a - b)) by nra.
  assert (0 <= b * (3 - 2 * b - a)) by nra.
  nra.
Qed.

Lemma smoothstep_monotone_unit_witness :
  smoothstep (1 / 4) <= smoothstep (3 / 4) /\
  smoothstep (1 - 1 / 4) = 1 - smoothstep (1 / 4).
Proof.
  destruct (smoothstep_monotone_unit (1 / 4) (3 / 4)
              ltac:(lra) ltac:(lra) ltac:(lra)) as (_ & H & _ & S).
  split; [exact H | exact S].
Defined.

(** X2: for a fixed seed, [hash01] has period [2 ^ 32] in [i] and no
    collision inside a period: two indices hash alike exactly when they
    are congruent modulo [2 ^ 32]. *)
Theorem hash01_index_collisions (seed i j : Z) :
  hash01 i seed = hash01 j seed <-> (i mod 2 ^ 32 = j mod 2 ^ 32)%Z.
Proof.
  rewrite hash01_eq_bits, hash01_bits_collide_iff. split; intros H.
  - apply (linear_cancel 374761393 2923004241 i j (seed * 668265263));
      [reflexivity | exact H].
  - rewrite <- Z.add_mod_idemp_l, <- Z.mul_mod_idemp_l, H by lia.
    rewrite Z.mul_mod_idemp_l, Z.add_mod_idemp_l by lia. reflexivity.
Qed.

(** X3: for a fixed index, two seeds give the same hash exactly when
    they are congruent modulo [2 ^ 32]. *)
Theorem hash01_seed_collisions (i s s' : Z) :
  hash01 i s = hash01 i s' <-> (s mod 2 ^ 32 = s' mod 2 ^ 32)%Z.
Proof.
  rewrite hash01_eq_bits, hash01_bits_collide_iff.
  rewrite (Z.add_comm (i * 374761393) (s * 668265263)).
  rewrite (Z.add_comm (i * 374761393) (s' * 668265263)).
  split; intros H.
  - apply (linear_cancel 668265263 2701016015 s s' (i * 374761393));
      [reflexivity | exact H].
  - rewrite <- Z.add_mod_idemp_l, <- Z.mul_mod_idemp_l, H by lia.
    rewrite Z.mul_mod_idemp_l, Z.add_mod_idemp_l by lia. reflexivity.
Qed.

(** X4: for every seed, every point [n / 0xFFFFFFFF] of the 32-bit grid
    is the hash of some index below [2 ^ 32]: the whole output range is
    used. *)
Theorem hash01_onto_grid (seed n : Z) :
  (0 <= n <= 0xFFFFFFFF)%Z ->
  exists i : Z, (0 <= i < 2 ^ 32)%Z /\
                hash01 i seed = IZR n / IZR 0xFFFFFFFF.
Proof.
  intros Hn. exists (unhash01_bits n seed). split.
  - unfold unhash01_bits. apply Z.mod_pos_bound. lia.
  - unfold hash01. rewrite hash_unhash by lia. reflexivity.
Qed.

Lemma hash01_onto_grid_witness :
  exists i : Z, (0 <= i < 2 ^ 32)%Z /\
                hash01 i 42 = IZR 123456789 / IZR 0xFFFFFFFF.
Proof.
  apply (hash01_onto_grid 42 123456789). lia.
Defined.

(** The fractional position inside a cell. *)
Lemma cell_fraction (t : R) : 0 <= t - IZR (Zfloor t) < 1.
Proof. pose proof (Zfloor_bound t). lra. Qed.

Lemma smoothstep_unit (f : R) : 0 <= f <= 1 -> 0 <= smoothstep f <= 1.
Proof.
  intros [H0 H1]. unfold smoothstep. split.
  - apply Rmult_le_pos; nra.
  - assert (E : 1 - f * f * (3 - 2 * f) = (1 - f) * (1 - f) * (1 + 2 * f))
      by ring.
    assert (0 <= (1 - f) * (1 - f) * (1 + 2 * f))
      by (apply Rmult_le_pos; nra).
    lra.
Qed.

Lemma value_noise_1d_unit (t : R) (seed : Z) :
  0 <= value_noise_1d t seed <= 1.
Proof.
  unfold value_noise_1d. cbv zeta.
  pose proof (cell_fraction t) as Hf.
  pose proof (smoothstep_unit (t - IZR (Zfloor t)) ltac:(lra)) as Hu.
  pose proof (hash01_bounds (Zfloor t) seed) as Ha.
  pose proof (hash01_bounds (Zfloor t + 1) seed) as Hb.
  split; nra.
Qed.

(** X5: [value_noise_1d t seed] lies between the hashes of the two
    lattice points around [t], hence in [0, 1]. *)
Theorem value_noise_1d_between (t : R) (seed : Z) :
  let a := hash01 (Zfloor t) seed in
  let b := hash01 (Zfloor t + 1) seed in
  Rmin a b <= value_noise_1d t seed <= Rmax a b /\
  0 <= value_noise_1d t seed <= 1.
Proof.
  cbv zeta. unfold value_noise_1d. cbv zeta.
  pose proof (cell_fraction t) as Hf.
  pose proof (smoothstep_unit (t - IZR (Zfloor t)) ltac:(lra)) as Hu.
  pose proof (hash01_bounds (Zfloor t) seed) as Ha.
  pose proof (hash01_bounds (Zfloor t + 1) seed) as Hb.
  set (u := smoothstep (t - IZR (Zfloor t))) in *.
  set (a := hash01 (Zfloor t) seed) in *.
  set (b := hash01 (Zfloor t + 1) seed) in *.
  split.
  - unfold Rmin, Rmax. destruct (Rle_dec a b); split; nra.
  - split; nra.
Qed.

End NoiseExtras.

(** ** Continuity of [value_noise_1d] *)

Section NoiseContinuity.

(** The value inside the closed cell [k, k + 1], right end included. *)
Lemma value_noise_1d_cell (k seed : Z) (t : R) :
  IZR k <= t <= IZR k + 1 ->
  value_noise_1d t seed =
  hash01 k seed * (1 - smoothstep (t - IZR k))
  + hash01 (k + 1) seed * smoothstep (t - IZR k).
Proof.
  intros [Hlo Hhi]. destruct (Rle_lt_or_eq_dec _ _ Hhi) as [Hlt | Heq].
  - unfold value_noise_1d. cbv zeta.
    rewrite (Zfloor_eq k t) by lra. reflexivity.
  - replace t with (IZR (k + 1)) by (rewrite plus_IZR; lra).
    rewrite value_noise_1d_at_int.
    replace (IZR (k + 1) - IZR k) with 1 by (rewrite plus_IZR; lra).
    rewrite smoothstep_1. ring.
Qed.

Lemma smoothstep_slope (f1 f2 : R) :
  0 <= f1 -> f1 <= f2 -> f2 <= 1 ->
  0 <= smoothstep f2 - smoothstep f1 <= 3 / 2 * (f2 - f1).
Proof.
  intros H0 H12 H1. unfold smoothstep.
  assert (E : f2 * f2 * (3 - 2 * f2) - f1 * f1 * (3 - 2 * f1)
              = (f2 - f1)
                * (f1 * (3 - 2 * f1 - f2) + f2 * (3 - 2 * f2 - f1)))
    by ring.
  assert (Glo : 0 <= f1 * (3 - 2 * f1 - f2) + f2 * (3 - 2 * f2 - f1)).
  { assert (0 <= f1 * (3 - 2 * f1 - f2)) by (apply Rmult_le_pos; lra).
    assert (0 <= f2 * (3 - 2 * f2 - f1)) by (apply Rmult_le_pos; lra).
    lra. }
  assert (Ghi : f1 * (3 - 2 * f1 - f2) + f2 * (3 - 2 * f2 - f1) <= 3 / 2).
  { assert (Esq : 3 / 2 - (f1 * (3 - 2 * f1 - f2) + f2 * (3 - 2 * f2 - f1))
                  = (f1 + f2 - 1) * (f1 + f2 - 1)
                    + (f1 - 1 / 2) * (f1 - 1 / 2)
                    + (f2 - 1 / 2) * (f2 - 1 / 2)) by field.
    pose proof (Rle_0_sqr (f1 + f2 - 1)) as S1.
    pose proof (Rle_0_sqr (f1 - 1 / 2)) as S2.
    pose proof (Rle_0_sqr (f2 - 1 / 2)) as S3.
    unfold Rsqr in S1, S2, S3. lra. }
  rewrite E. split.
  - apply Rmult_le_pos; lra.
  - rewrite (Rmult_comm (3 / 2)).
    apply Rmult_le_compat_l; lra.
Qed.

Lemma value_noise_1d_cell_lipschitz (k seed : Z) (s t : R) :
  IZR k <= s -> s <= t -> t <= IZR k + 1 ->
  Rabs (value_noise_1d t seed - value_noise_1d s seed) <= 3 / 2 * (t - s).
Proof.
  intros Hk Hst Ht.
  rewrite (value_noise_1d_cell k seed t) by lra.
  rewrite (value_noise_1d_cell k seed s) by lra.
  pose proof (smoothstep_slope (s - IZR k) (t - IZR k)
                ltac:(lra) ltac:(lra) ltac:(lra)) as [Dlo Dhi].
  pose proof (hash01_bounds k seed) as Ha.
  pose proof (hash01_bounds (k + 1) seed) as Hb.
  set (a := hash01 k seed) in *. set (b := hash01 (k + 1) seed) in *.
  set (us := smoothstep (s - IZR k)) in *.
  set (ut := smoothstep (t - IZR k)) in *.
  replace (a * (1 - ut) + b * ut - (a * (1 - us) + b * us))
    with ((b - a) * (ut - us)) by ring.
  rewrite Rabs_mult, (Rabs_pos_eq (ut - us)) by exact Dlo.
  assert (Hab : Rabs (b - a) <= 1) by (apply Rabs_le; lra).
  pose proof (Rabs_pos (b - a)) as Hp.
  apply Rle_trans with (1 * (ut - us)).
  - apply Rmult_le_compat_r; assumption.
  - lra.
Qed.

Lemma value_noise_1d_lipschitz_up (n : nat) :
  forall (seed : Z) (s t : R),
    s <= t -> (Zfloor t - Zfloor s)%Z = Z.of_nat n ->
    Rabs (value_noise_1d t seed - value_noise_1d s seed)
    <= 3 / 2 * (t - s).
Proof.
  induction n as [| n IH]; intros seed s t Hst Hn.
  - pose proof (Zfloor_bound s) as Hs. pose proof (Zfloor_bound t) as Ht.
    assert (E : Zfloor t = Zfloor s) by lia. rewrite E in Ht.
    apply (value_noise_1d_cell_lipschitz (Zfloor s)); lra.
  - pose proof (Zfloor_bound s) as Hs. pose proof (Zfloor_bound t) as Ht.
    set (m := (Zfloor s + 1)%Z).
    assert (Hm : IZR m = IZR (Zfloor s) + 1) by (unfold m; apply plus_IZR).
    assert (Hmt : IZR m <= t).
    { apply Rle_trans with (IZR (Zfloor t)); [apply IZR_le; lia | lra]. }
    assert (H1 : Rabs (value_noise_1d (IZR m) seed - value_noise_1d s seed)
                 <= 3 / 2 * (IZR m - s))
      by (apply (value_noise_1d_cell_lipschitz (Zfloor s)); lra).
    assert (H2 : Rabs (value_noise_1d t seed - value_noise_1d (IZR m) seed)
                 <= 3 / 2 * (t - IZR m)).
    { apply IH; [exact Hmt |]. rewrite ZfloorZ. unfold m. lia. }
    replace (value_noise_1d t seed - value_noise_1d s seed)
      with ((value_noise_1d t seed - value_noise_1d (IZR m) seed)
            + (value_noise_1d (IZR m) seed - value_noise_1d s seed))
      by ring.
    eapply Rle_trans; [apply Rabs_triang |]. lra.
Qed.

(** X6: [value_noise_1d] is Lipschitz in [t] with constant 3/2, for
    every seed: it has no jump, neither inside a cell nor when [t]
    crosses an integer. *)
Theorem value_noise_1d_lipschitz (seed : Z) (s t : R) :
  Rabs (value_noise_1d t seed - value_noise_1d s seed)
  <= 3 / 2 * Rabs (t - s).
Proof.
  destruct (Rle_lt_dec s t) as [Hst | Hts].
  - rewrite (Rabs_pos_eq (t - s)) by lra.
    apply (value_noise_1d_lipschitz_up
             (Z.to_nat (Zfloor t - Zfloor s))); [exact Hst |].
    pose proof (Zfloor_le s t Hst). lia.
  - rewrite (Rabs_minus_sym t s), Rabs_minus_sym.
    rewrite (Rabs_pos_eq (s - t)) by lra.
    apply (value_noise_1d_lipschitz_up
             (Z.to_nat (Zfloor s - Zfloor t))); [lra |].
    pose proof (Zfloor_le t s ltac:(lra)). lia.
Qed.

(** X7: around a lattice point the noise leaves the lattice value only
    quadratically: for [|t - k| <= 1],
    [|value_noise_1d t seed - hash01 k seed| <= 3 (t - k)^2]. *)
Theorem value_noise_1d_flat_at_lattice (k seed : Z) (t : R) :
  IZR k - 1 <= t -> t <= IZR k + 1 ->
  Rabs (value_noise_1d t seed - hash01 k seed)
  <= 3 * ((t - IZR k) * (t - IZR k)).
Proof.
  intros Hlo Hhi.
  pose proof (hash01_bounds k seed) as Hk.
  destruct (Rle_lt_dec (IZR k) t) as [Hge | Hlt].
  - rewrite (value_noise_1d_cell k seed t) by lra.
    pose proof (hash01_bounds (k + 1) seed) as Hb.
    set (f := t - IZR k) in *.
    assert (Hf : 0 <= f <= 1) by (unfold f; lra).
    pose proof (smoothstep_unit f Hf) as Hu.
    assert (Hu3 : smoothstep f <= 3 * (f * f)).
    { unfold smoothstep.
      assert (0 <= f * f * (2 * f)) by (apply Rmult_le_pos; nra). lra. }
    set (a := hash01 k seed) in *. set (b := hash01 (k + 1) seed) in *.
    replace (a * (1 - smoothstep f) + b * smoothstep f - a)
      with ((b - a) * smoothstep f) by ring.
    rewrite Rabs_mult, (Rabs_pos_eq (smoothstep f)) by lra.
    assert (Hab : Rabs (b - a) <= 1) by (apply Rabs_le; lra).
    apply Rle_trans with (1 * smoothstep f); [| lra].
    apply Rmult_le_compat_r; lra.
  - assert (Ek : IZR (k - 1) = IZR k - 1) by apply minus_IZR.
    rewrite (value_noise_1d_cell (k - 1) seed t) by lra.
    replace (k - 1 + 1)%Z with k by lia.
    pose proof (hash01_bounds (k - 1) seed) as Hb.
    rewrite Ek.
    set (f := t - (IZR k - 1)) in *.
    assert (Hf : 0 <= f <= 1) by (unfold f; lra).
    replace (t - IZR k) with (- (1 - f)) by (unfold f; lra).
    pose proof (smoothstep_unit f Hf) as Hu.
    assert (Hu3 : 1 - smoothstep f <= 3 * ((1 - f) * (1 - f))).
    { unfold smoothstep.
      assert (E : 1 - f * f * (3 - 2 * f) = (1 - f) * (1 - f) * (1 + 2 * f))
        by ring.
      assert (0 <= (1 - f) * (1 - f) * (2 - 2 * f))
        by (apply Rmult_le_pos; nra).
      lra. }
    set (a := hash01 (k - 1) seed) in *. set (b := hash01 k seed) in *.
    replace (a * (1 - smoothstep f) + b * smoothstep f - b)
      with ((a - b) * (1 - smoothstep f)) by ring.
    rewrite Rabs_mult, (Rabs_pos_eq (1 - smoothstep f)) by lra.
    assert (Hab : Rabs (a - b) <= 1) by (apply Rabs_le; lra).
    apply Rle_trans with (1 * (1 - smoothstep f)); [| lra].
    apply Rmult_le_compat_r; lra.
Qed.

Lemma value_noise_1d_flat_at_lattice_witness :
  Rabs (value_noise_1d (7 / 2) 42 - hash01 4 42)
  <= 3 * ((7 / 2 - IZR 4) * (7 / 2 - IZR 4)).
Proof.
  apply (value_noise_1d_flat_at_lattice 4 42 (7 / 2)); lra.
Defined.

End NoiseContinuity.

(** ** Wind field: size and direction *)

Section WindExtras.

Lemma height_factor_in_box (y : R) :
  -60 <= y <= HEIGHT + 20 ->
  0.38 <= 0.4 + 0.6 * (1.0 - y / HEIGHT) <= 1.06.
Proof. unfold HEIGHT. intros H. lra. Qed.

Lemma gust_unit (a : R) : 0 <= Rmax 0.0 (sin a) <= 1.
Proof.
  rewrite float_0. pose proof (SIN_bound a) as [_ Hs]. split.
  - apply Rmax_l.
  - apply Rmax_lub; lra.
Qed.

Lemma product_of_units (a b : R) :
  0 <= a <= 1 -> 0 <= b <= 1 -> 0 <= a * b <= 1.
Proof. intros Ha Hb. split; nra. Qed.

(** The lift of line 146 for a particle between the vertical margins. *)
Lemma lift_bounds (t y depth : R) (seed : Z) :
  -60 <= y <= HEIGHT + 20 ->
  -229.24 <= snd (wind_field t y depth seed) <= 0.
Proof.
  intros Hy. unfold wind_field. cbv zeta. cbn [snd].
  pose proof (height_factor_in_box y Hy) as Hh.
  pose proof (gust_unit (t * 1.2 + IZR seed * 0.01)) as Hg.
  pose proof (value_noise_1d_unit (t * 1.1) (seed + 999)) as Hl.
  pose proof (product_of_units _ _ Hg Hl) as Hgl.
  set (h := 0.4 + 0.6 * (1.0 - y / HEIGHT)) in *.
  set (gl := Rmax 0.0 (sin (t * 1.2 + IZR seed * 0.01))
             * value_noise_1d (t * 1.1) (seed + 999)) in *.
  assert (Hk : 0 <= gl * (0.3 + 0.7 * h) <= 1.042) by (split; nra).
  replace (gl * 220 * (0.3 + 0.7 * h))
    with (220 * (gl * (0.3 + 0.7 * h))) by ring.
  lra.
Qed.

(** X8: for a particle between the vertical margins and a depth in
    [0, 1], the wind acceleration is bounded: [|ax| <= 143.1], and the
    vertical part never pushes down: [-229.24 <= ay <= 0]. *)
Theorem wind_field_bounds (t y depth : R) (seed : Z) :
  -60 <= y <= HEIGHT + 20 -> 0 <= depth <= 1 ->
  -143.1 <= fst (wind_field t y depth seed) <= 143.1 /\
  -229.24 <= snd (wind_field t y depth seed) <= 0.
Proof.
  intros Hy Hd. split; [| apply lift_bounds; exact Hy].
  unfold wind_field. cbv zeta. cbn [fst].
  pose proof (height_factor_in_box y Hy) as Hh.
  pose proof (SIN_bound (t * 0.35)) as Hs.
  pose proof (value_noise_1d_unit (t * 0.9) seed) as Hn.
  set (h := 0.4 + 0.6 * (1.0 - y / HEIGHT)) in *.
  set (w := sin (t * 0.35) + (value_noise_1d (t * 0.9) seed * 2 - 1) * 0.35).
  assert (Hw : -1.35 <= w <= 1.35) by (unfold w; lra).
  assert (Hwh : -1.431 <= w * h <= 1.431) by (split; nra).
  assert (Hq : -0.7155 <= (0.5 - depth) * (w * h) <= 0.7155)
    by (split; nra).
  replace ((0.5 - depth) * (w * 200 * h))
    with (200 * ((0.5 - depth) * (w * h))) by ring.
  lra.
Qed.

Lemma wind_field_bounds_witness :
  -143.1 <= fst (wind_field 3 300 0.25 42) <= 143.1 /\
  -229.24 <= snd (wind_field 3 300 0.25 42) <= 0.
Proof.
  apply (wind_field_bounds 3 300 0.25 42); unfold HEIGHT; lra.
Defined.

(** X9: the horizontal wind is mirrored about depth 0.5 (it vanishes
    there, and depth [1 - d] is pushed exactly opposite to depth [d]),
    while the lift does not depend on the depth; and there is no lift
    at all while the gust sine is not positive. *)
Theorem wind_field_depth_mirror (t y d d' : R) (seed : Z) :
  fst (wind_field t y (1 - d) seed) = - fst (wind_field t y d seed) /\
  fst (wind_field t y 0.5 seed) = 0 /\
  snd (wind_field t y d seed) = snd (wind_field t y d' seed) /\
  (sin (t * 1.2 + IZR seed * 0.01) <= 0 ->
   snd (wind_field t y d seed) = 0).
Proof.
  unfold wind_field. cbv zeta. cbn [fst snd].
  split; [| split; [| split]].
  - set (w := (sin (t * 0.35)
               + (value_noise_1d (t * 0.9) seed * 2 - 1) * 0.35) * 200
              * (0.4 + 0.6 * (1.0 - y / HEIGHT))).
    lra.
  - set (w := (sin (t * 0.35)
               + (value_noise_1d (t * 0.9) seed * 2 - 1) * 0.35) * 200
              * (0.4 + 0.6 * (1.0 - y / HEIGHT))).
    lra.
  - reflexivity.
  - intros Hs. rewrite float_0, Rmax_left by exact Hs. ring.
Qed.

Lemma wind_field_depth_mirror_witness :
  snd (wind_field 0 300 0.25 0) = 0.
Proof.
  apply (wind_field_depth_mirror 0 300 0.25 0.25 0).
  rewrite !Rmult_0_l, Rplus_0_l, sin_0. lra.
Defined.

End WindExtras.

(** ** Update: the other exits and what stays *)

Section UpdateExtras.

Import Aux.

Lemma reenter_rng (y0 : R) (g : rng) :
  snd (reenter y0 g) = advance (advance (advance (advance g))).
Proof. reflexivity. Qed.

Lemma reenter_depth_consistent (y0 : R) (g : rng) :
  rng_ok g -> depth_consistent (fst (reenter y0 g)).
Proof.
  intros Hg. rewrite reenter_eq. apply reset_depth_consistent.
  rewrite uniform_eq. cbn [snd]. apply rng_ok_advance. exact Hg.
Qed.

Lemma update_of_reenter (p : particle) (dt t y0 : R) (g : rng) :
  rng_ok g ->
  recycle (integrate p dt t) g = reenter y0 g ->
  update p dt t g = reenter y0 g.
Proof.
  intros Hg E. rewrite update_eq, E.
  rewrite wrap_inside.
  - destruct (reenter y0 g); reflexivity.
  - pose proof (reenter_x y0 g Hg). unfold WIDTH in *. lra.
Qed.

(** X10: if the integration step leaves [y < -60] (blown out of the
    top), the particle is reset within that update and re-enters at the
    bottom margin: [y = HEIGHT + 20], a fresh [x] in [0, WIDTH) and a
    fresh parameter set. *)
Theorem update_resets_above (p : particle) (dt t : R) (g : rng) :
  rng_ok g ->
  y (integrate p dt t) < -60 ->
  update p dt t g =
    reset (fst (uniform 0 WIDTH g)) (HEIGHT + 20)
      (snd (uniform 0 WIDTH g)) /\
  0 <= x (fst (update p dt t g)) < WIDTH /\
  y (fst (update p dt t g)) = HEIGHT + 20 /\
  depth_consistent (fst (update p dt t g)).
Proof.
  intros Hg Hy.
  assert (E : update p dt t g = reenter (HEIGHT + 20) g)
    by (apply update_of_reenter;
        [exact Hg | apply recycle_above; exact Hy]).
  rewrite E. split; [apply reenter_eq |].
  split; [apply reenter_x; exact Hg |].
  split; [apply reenter_y | apply reenter_depth_consistent; exact Hg].
Qed.

Lemma update_no_exit (p : particle) (dt t : R) (g : rng) :
  -60 <= y (integrate p dt t) <= HEIGHT + 20 ->
  update p dt t g = (wrap (integrate p dt t), g).
Proof.
  intros Hy. rewrite update_eq, recycle_inside by exact Hy. reflexivity.
Qed.

Lemma wrap_params_consistent (q : particle) :
  params_consistent q -> params_consistent (wrap q).
Proof.
  intros Hq. unfold wrap.
  destruct (Rlt_dec (x q) (-50)); [exact Hq |].
  destruct (Rgt_dec (x q) (WIDTH + 50)); exact Hq.
Qed.

(** X11: an update without vertical exit keeps the particle's identity:
    depth, size, alpha, gravity, sway_amp, sway_speed, drag and seed are
    those it had before the call (only position and velocity move). *)
Theorem update_keeps_parameters (p : particle) (dt t : R) (g : rng) :
  -60 <= y (integrate p dt t) <= HEIGHT + 20 ->
  depth (fst (update p dt t g)) = depth p /\
  size (fst (update p dt t g)) = size p /\
  alpha (fst (update p dt t g)) = alpha p /\
  gravity (fst (update p dt t g)) = gravity p /\
  sway_amp (fst (update p dt t g)) = sway_amp p /\
  sway_speed (fst (update p dt t g)) = sway_speed p /\
  drag (fst (update p dt t g)) = drag p /\
  seed (fst (update p dt t g)) = seed p.
Proof.
  intros Hy. rewrite update_no_exit by exact Hy. cbn [fst].
  unfold wrap.
  destruct (Rlt_dec (x (integrate p dt t)) (-50));
    [repeat split |].
  destruct (Rgt_dec (x (integrate p dt t)) (WIDTH + 50)); repeat split.
Qed.

(** X12: [update] draws from the random source only on a vertical exit,
    and then exactly four values (x, depth, sway factor, seed);
    otherwise the generator is left untouched. *)
Theorem update_draws (p : particle) (dt t : R) (g : rng) :
  (-60 <= y (integrate p dt t) <= HEIGHT + 20 ->
   snd (update p dt t g) = g) /\
  (y (integrate p dt t) > HEIGHT + 20 \/ y (integrate p dt t) < -60 ->
   snd (update p dt t g) = advance (advance (advance (advance g)))).
Proof.
  rewrite update_eq. cbn [snd]. split.
  - intros Hy. rewrite recycle_inside by exact Hy. reflexivity.
  - intros [Hy | Hy].
    + rewrite recycle_below by exact Hy. apply reenter_rng.
    + rewrite recycle_above by exact Hy. apply reenter_rng.
Qed.

(** X13: a step at least as long as [1 / drag] stops the particle: the
    damping factor is clamped to 0, so the velocity becomes zero and the
    position does not move in that update. *)
Theorem update_freezes_on_long_step (p : particle) (dt t : R) (g : rng) :
  in_box p -> 1 <= drag p * dt ->
  damp p dt = 0 /\
  update p dt t g = (mkParticle (x p) (y p) (depth p) (size p) (alpha p)
                       (gravity p) 0 0 (sway_amp p) (sway_speed p)
                       (drag p) (seed p), g).
Proof.
  intros Hbox Hlong.
  assert (Hd : damp p dt = 0).
  { unfold damp. rewrite float_0, float_1. apply Rmax_left. lra. }
  split; [exact Hd |].
  assert (E : integrate p dt t =
              mkParticle (x p) (y p) (depth p) (size p) (alpha p)
                (gravity p) 0 0 (sway_amp p) (sway_speed p)
                (drag p) (seed p)).
  { unfold integrate. cbv zeta. rewrite Hd. f_equal; ring. }
  rewrite update_eq, E.
  destruct Hbox as [Hy Hx].
  rewrite recycle_inside by (cbn [y]; exact Hy). cbn [fst snd].
  rewrite wrap_inside by (cbn [x]; exact Hx). reflexivity.
Qed.

End UpdateExtras.

Section UpdateExtrasWitnesses.

Import Samples MoreSamples.

Ltac sample_step p :=
  rewrite integrate_t0_seed0 by reflexivity;
  cbv zeta;
  rewrite damp_unclamped by (cbn [p drag]; lra);
  unfold HEIGHT, WIDTH;
  cbn [p x y depth size alpha gravity vx vy sway_amp sway_speed drag seed].

Lemma p_high_rises_out : y (integrate p_high 0.1 0) < -60.
Proof. sample_step p_high. lra. Qed.

Lemma p_mid_stays_in : -60 <= y (integrate p_mid 0.1 0) <= HEIGHT + 20.
Proof. split; sample_step p_mid; lra. Qed.

Lemma p_mid_in_box : in_box p_mid.
Proof. unfold in_box, HEIGHT, WIDTH. cbn [p_mid x y]. lra. Qed.

Lemma update_resets_above_witness :
  rng_ok g_half /\ y (integrate p_high 0.1 0) < -60 /\
  y (fst (update p_high 0.1 0 g_half)) = HEIGHT + 20.
Proof.
  split; [exact g_half_ok |]. split; [exact p_high_rises_out |].
  destruct (update_resets_above p_high 0.1 0 g_half g_half_ok
              p_high_rises_out) as (_ & _ & Hy & _).
  exact Hy.
Defined.

Lemma update_keeps_parameters_witness :
  -60 <= y (integrate p_mid 0.1 0) <= HEIGHT + 20 /\
  seed (fst (update p_mid 0.1 0 g_half)) = seed p_mid /\
  depth (fst (update p_mid 0.1 0 g_half)) = depth p_mid.
Proof.
  split; [exact p_mid_stays_in |].
  destruct (update_keeps_parameters p_mid 0.1 0 g_half p_mid_stays_in)
    as (Hd & _ & _ & _ & _ & _ & _ & Hs).
  split; [exact Hs | exact Hd].
Defined.

Lemma update_draws_witness :
  snd (update p_mid 0.1 0 g_half) = g_half /\
  snd (update p_low 0.1 0 g_half) =
    advance (advance (advance (advance g_half))) /\
  snd (update p_high 0.1 0 g_half) =
    advance (advance (advance (advance g_half))).
Proof.
  split; [| split].
  - destruct (update_draws p_mid 0.1 0 g_half) as [H _].
    exact (H p_mid_stays_in).
  - destruct (update_draws p_low 0.1 0 g_half) as [_ H].
    exact (H (or_introl p_low_falls_out)).
  - destruct (update_draws p_high 0.1 0 g_half) as [_ H].
    exact (H (or_intror p_high_rises_out)).
Defined.

Lemma update_freezes_on_long_step_witness :
  in_box p_mid /\ 1 <= drag p_mid * 1 /\
  vx (fst (update p_mid 1 0 g_half)) = 0 /\
  y (fst (update p_mid 1 0 g_half)) = y p_mid.
Proof.
  assert (H : 1 <= drag p_mid * 1) by (cbn [p_mid drag]; lra).
  split; [exact p_mid_in_box |]. split; [exact H |].
  destruct (update_freezes_on_long_step p_mid 1 0 g_half p_mid_in_box H)
    as [_ E].
  rewrite E. split; reflexivity.
Defined.

End UpdateExtrasWitnesses.

(** ** Life of a particle: creation, re-entry, invariants *)

Section LifeExtras.

Import Aux Samples.

Lemma init_rng (g : rng) :
  snd (init g) = advance (advance (advance (advance (advance g)))).
Proof. reflexivity. Qed.

Lemma init_depth_consistent (g : rng) :
  rng_ok g -> depth_consistent (fst (init g)).
Proof.
  intros Hg. rewrite init_eq. apply reset_depth_consistent.
  apply rng_ok_advance, rng_ok_advance. exact Hg.
Qed.

(** X14: [__init__] puts the particle on the screen, at rest
    horizontally and falling, with the parameters of its depth; it
    consumes five draws. *)
Theorem init_on_screen (g : rng) :
  rng_ok g ->
  0 <= x (fst (init g)) < WIDTH /\
  0 <= y (fst (init g)) < HEIGHT /\
  depth_consistent (fst (init g)) /\
  20 <= vy (fst (init g)) < 170 /\
  snd (init g) = advance (advance (advance (advance (advance g)))).
Proof.
  intros Hg.
  pose proof (uniform_range WIDTH g Hg ltac:(unfold WIDTH; lra)) as Hx.
  pose proof (uniform_range HEIGHT (advance g) (rng_ok_advance g Hg)
                ltac:(unfold HEIGHT; lra)) as Hy.
  pose proof (init_depth_consistent g Hg) as Hc.
  split; [| split; [| split; [exact Hc | split; [| apply init_rng]]]].
  - rewrite init_eq.
    match goal with
    | |- _ <= x (fst (reset ?a ?b ?h)) < _ =>
        destruct (reset_position a b h) as [Ex _]; rewrite Ex
    end.
    exact Hx.
  - rewrite init_eq.
    match goal with
    | |- _ <= y (fst (reset ?a ?b ?h)) < _ =>
        destruct (reset_position a b h) as [_ Ey]; rewrite Ey
    end.
    exact Hy.
  - destruct Hc as (Hd & _ & _ & _ & _ & Hv & _). rewrite Hv. lra.
Qed.

Lemma init_on_screen_witness :
  rng_ok g_half /\ 0 <= x (fst (init g_half)) < WIDTH /\
  0 <= y (fst (init g_half)) < HEIGHT.
Proof.
  split; [exact g_half_ok |].
  destruct (init_on_screen g_half g_half_ok) as (Hx & Hy & _).
  split; [exact Hx | exact Hy].
Defined.

(** X15: a particle that has just re-entered at the bottom margin
    ([y = HEIGHT + 20], parameters fresh from [reset], so moving down)
    leaves through the bottom on its next update for every step
    [0 < dt <= 0.1] and every time [t], and is reset to the top
    ([y = -20]) by that update. *)
Theorem bottom_reentry_goes_to_top (p : particle) (dt t : R) (g : rng) :
  rng_ok g -> depth_consistent p -> y p = HEIGHT + 20 ->
  0 < dt -> dt <= 0.1 ->
  y (integrate p dt t) > HEIGHT + 20 /\
  y (fst (update p dt t g)) = -20.
Proof.
  intros Hg Hc Hy Hdt0 Hdt1.
  destruct Hc as (Hd & _ & _ & Hgr & _ & Hv & _ & _ & Hdr & _).
  assert (Hbox : -60 <= y p <= HEIGHT + 20)
    by (rewrite Hy; unfold HEIGHT; lra).
  pose proof (lift_bounds t (y p) (depth p) (seed p) Hbox) as Hl.
  assert (Hout : y (integrate p dt t) > HEIGHT + 20).
  { unfold integrate. cbv zeta. cbn [y].
    rewrite damp_unclamped by (rewrite Hdr; nra).
    set (aw := snd (wind_field t (y p) (depth p) (seed p))) in *.
    rewrite Hy, Hgr, Hv, Hdr.
    assert (Hacc : -19.924 <= (30 + depth p * 80 + aw) * dt) by nra.
    assert (Hv1 : 0 < 20 + depth p * 150 + (30 + depth p * 80 + aw) * dt)
      by lra.
    assert (Hdamp : 0 < 1 - (1.6 - depth p * 0.6) * dt) by nra.
    assert (0 < (20 + depth p * 150 + (30 + depth p * 80 + aw) * dt)
                * (1 - (1.6 - depth p * 0.6) * dt) * dt)
      by (apply Rmult_lt_0_compat;
          [apply Rmult_lt_0_compat; assumption | exact Hdt0]).
    lra. }
  split; [exact Hout |].
  rewrite (update_of_reenter p dt t (-20) g Hg (recycle_below _ g Hout)).
  apply reenter_y.
Qed.

Lemma p_low_depth_consistent : depth_consistent p_low.
Proof.
  unfold depth_consistent.
  cbn [p_low depth size alpha gravity vx vy sway_amp sway_speed drag seed].
  assert (Ha : int (70 + 0.5 * 185) = 162%Z).
  { rewrite int_nonneg by lra. apply Zfloor_eq. lra. }
  rewrite Ha. repeat split; try lra; try lia.
Qed.

Lemma bottom_reentry_goes_to_top_witness :
  rng_ok g_half /\ depth_consistent p_low /\ y p_low = HEIGHT + 20 /\
  y (fst (update p_low 0.05 7 g_half)) = -20.
Proof.
  assert (Hy : y p_low = HEIGHT + 20)
    by (unfold HEIGHT; cbn [p_low y]; lra).
  split; [exact g_half_ok |]. split; [exact p_low_depth_consistent |].
  split; [exact Hy |].
  destruct (bottom_reentry_goes_to_top p_low 0.05 7 g_half g_half_ok
              p_low_depth_consistent Hy ltac:(lra) ltac:(lra)) as [_ H].
  exact H.
Defined.

Lemma depth_consistent_params (p : particle) :
  depth_consistent p -> params_consistent p.
Proof.
  intros (H1 & H2 & H3 & H4 & _ & _ & H7 & H8 & H9 & H10).
  unfold params_consistent. tauto.
Qed.

Lemma update_params_consistent (p : particle) (dt t : R) (g : rng) :
  rng_ok g -> params_consistent p ->
  params_consistent (fst (update p dt t g)).
Proof.
  intros Hg Hp.
  destruct (recycle_cases (integrate p dt t) g)
    as [[Hin _] | [[_ E] | [_ E]]].
  - rewrite update_no_exit by exact Hin. cbn [fst].
    apply wrap_params_consistent. exact Hp.
  - rewrite (update_of_reenter p dt t _ g Hg E).
    apply depth_consistent_params, reenter_depth_consistent. exact Hg.
  - rewrite (update_of_reenter p dt t _ g Hg E).
    apply depth_consistent_params, reenter_depth_consistent. exact Hg.
Qed.

Lemma reachable_params_consistent (p : particle) :
  reachable p -> params_consistent p.
Proof.
  intros H. induction H as [g Hg | q dt t g _ IH Hg].
  - apply depth_consistent_params, init_depth_consistent. exact Hg.
  - apply update_params_consistent; assumption.
Qed.

End LifeExtras.

(** ** Every particle the program holds *)

Section ReachableExtras.

Import Aux Samples Render.

Lemma alpha_range (d : R) :
  0 <= d < 1 -> (70 <= int (70 + d * 185) <= 254)%Z.
Proof.
  intros Hd. rewrite int_nonneg by lra.
  pose proof (Zfloor_bound (70 + d * 185)) as Hfl.
  assert (Hlo : (70 <= Zfloor (70 + d * 185))%Z)
    by (apply Zfloor_lub; lra).
  assert (Hhi : (Zfloor (70 + d * 185) < 255)%Z) by (apply lt_IZR; lra).
  lia.
Qed.

Lemma params_bounds (p : particle) :
  params_consistent p ->
  1 <= size p < 3.5 /\ (70 <= alpha p <= 254)%Z /\
  30 <= gravity p < 110 /\ 40 <= sway_amp p < 110 /\
  1 < drag p <= 1.6.
Proof.
  intros (Hd & Hs & Ha & Hg & Hw & _ & Hr & _).
  rewrite Hs, Ha, Hg, Hw, Hr.
  pose proof (alpha_range (depth p) Hd).
  repeat split; try lra; try lia.
Qed.

(** X16: whatever updates a particle has gone through since
    [__init__], its parameters are those [reset] derives from its
    current depth, and they stay in fixed ranges: size in [1, 3.5),
    alpha in [70, 254], gravity in [30, 110), sway_amp in [40, 110),
    drag in (1, 1.6], sway_speed in [0.25, 1.05), seed in
    [0, 10000]. *)
Theorem reachable_parameters (p : particle) :
  reachable p ->
  params_consistent p /\
  1 <= size p < 3.5 /\ (70 <= alpha p <= 254)%Z /\
  30 <= gravity p < 110 /\ 40 <= sway_amp p < 110 /\
  1 < drag p <= 1.6.
Proof.
  intros H. pose proof (reachable_params_consistent p H) as Hp.
  split; [exact Hp | apply params_bounds; exact Hp].
Qed.

Lemma reachable_parameters_witness :
  reachable (fst (update p_mid 0.1 0 g_half)) /\
  1 < drag (fst (update p_mid 0.1 0 g_half)) <= 1.6.
Proof.
  assert (H : reachable (fst (update p_mid 0.1 0 g_half))).
  { rewrite <- init_g_half.
    apply reach_update; [apply reach_init |]; exact g_half_ok. }
  split; [exact H |].
  destruct (reachable_parameters _ H) as (_ & _ & _ & _ & _ & Hd).
  exact Hd.
Defined.

Lemma radius_range (p : particle) :
  params_consistent p ->
  (1 <= int (size p) <= 3)%Z /\
  IZR (int (size p)) <= size p < IZR (int (size p)) + 1.
Proof.
  intros Hp. destruct (params_bounds p Hp) as (Hs & _).
  rewrite int_nonneg by lra.
  pose proof (Zfloor_bound (size p)) as Hfl.
  assert (Hlo : (1 <= Zfloor (size p))%Z) by (apply Zfloor_lub; lra).
  assert (Hhi : (Zfloor (size p) < 4)%Z) by (apply lt_IZR; lra).
  split; [lia | exact Hfl].
Qed.

(** X17: what [draw] hands to pygame for a particle of the program: the
    radius is [size] truncated, one of 1, 2, 3; the scratch surface is a
    square of side [2r + 2] (4 to 8 pixels) in which the disc fits with a
    margin of one pixel on each side; the alpha channel is a valid
    colour component (in [70, 254]); and the blit position passed,
    [(x - r, y - r)], puts the disc's centre at [(x + 1, y + 1)]. *)
Theorem draw_sprite (p : particle) :
  reachable p ->
  let s := draw p in
  (1 <= radius s <= 3)%Z /\
  IZR (radius s) <= size p < IZR (radius s) + 1 /\
  surface_size s = (2 * radius s + 2, 2 * radius s + 2)%Z /\
  (4 <= fst (surface_size s) <= 8)%Z /\
  colour s = (255, 255, 255, alpha p)%Z /\ (0 <= alpha p <= 255)%Z /\
  (fst (centre s) - radius s = 1)%Z /\
  (fst (centre s) + radius s = fst (surface_size s) - 1)%Z /\
  centre s = (radius s + 1, radius s + 1)%Z /\
  fst (dest s) + IZR (fst (centre s)) = x p + 1 /\
  snd (dest s) + IZR (snd (centre s)) = y p + 1.
Proof.
  intros H. pose proof (reachable_params_consistent p H) as Hp.
  destruct (radius_range p Hp) as [Hr Hfl].
  destruct (params_bounds p Hp) as (_ & Ha & _).
  cbv zeta. unfold draw. cbv zeta.
  cbn [radius surface_size colour centre dest fst snd].
  set (r := int (size p)) in *.
  split; [exact Hr |]. split; [exact Hfl |].
  split; [f_equal; lia |]. split; [lia |].
  split; [reflexivity |]. split; [lia |].
  split; [lia |]. split; [lia |]. split; [reflexivity |].
  rewrite plus_IZR. split; lra.
Qed.

Lemma draw_sprite_witness :
  reachable (fst (init g_half)) /\
  (1 <= radius (draw (fst (init g_half))) <= 3)%Z.
Proof.
  pose proof (reach_init g_half g_half_ok) as H.
  split; [exact H |].
  destruct (draw_sprite (fst (init g_half)) H) as (Hr & _).
  exact Hr.
Defined.

End ReachableExtras.

(** ** The main loop *)

Section DriverExtras.

Import ListNotations.
Import Aux Samples Driver.

Lemma bind_eq {A B : Type} (c : Rand A) (k : A -> Rand B) (g : rng) :
  bind c k g = k (fst (c g)) (snd (c g)).
Proof. unfold bind. destruct (c g). reflexivity. Qed.

Lemma make_particles_S (n : nat) (g : rng) :
  make_particles (S n) g =
  (fst (init g) :: fst (make_particles n (snd (init g))),
   snd (make_particles n (snd (init g)))).
Proof.
  cbn [make_particles]. rewrite !bind_eq. reflexivity.
Qed.

Lemma update_all_cons (p : particle) (ps : list particle) (dt t : R)
    (g : rng) :
  update_all (p :: ps) dt t g =
  (fst (update p dt t g)
     :: fst (update_all ps dt t (snd (update p dt t g))),
   snd (update_all ps dt t (snd (update p dt t g)))).
Proof.
  cbn [update_all]. rewrite !bind_eq. reflexivity.
Qed.

Lemma frame_eq (ms : Z) (st : sim) (g : rng) :
  frame ms st g =
  (mkSim (fst (update_all (particles st) (IZR ms / 1000.0)
                 (clock_t st + IZR ms / 1000.0) (advance g)))
         (clock_t st + IZR ms / 1000.0),
   snd (update_all (particles st) (IZR ms / 1000.0)
          (clock_t st + IZR ms / 1000.0) (advance g))).
Proof.
  unfold frame. cbv zeta. rewrite !bind_eq. reflexivity.
Qed.

Lemma run_cons (ms : Z) (rest : list Z) (st : sim) (g : rng) :
  run (ms :: rest) st g = run rest (fst (frame ms st g)) (snd (frame ms st g)).
Proof. cbn [run]. apply bind_eq. Qed.

Lemma main_eq (ticks : list Z) (g : rng) :
  main ticks g = run ticks (fst (start g)) (snd (start g)).
Proof. unfold main. apply bind_eq. Qed.

Lemma start_eq (g : rng) :
  start g = (mkSim (fst (make_particles N_PARTICLES g)) 0.0,
             snd (make_particles N_PARTICLES g)).
Proof. unfold start. rewrite bind_eq. reflexivity. Qed.

(** *** Lengths *)

Lemma make_particles_length (n : nat) :
  forall g, length (fst (make_particles n g)) = n.
Proof.
  induction n as [| n IH]; intros g.
  - reflexivity.
  - rewrite make_particles_S. cbn [fst length]. rewrite IH. reflexivity.
Qed.

Lemma update_all_length (ps : list particle) (dt t : R) :
  forall g, length (fst (update_all ps dt t g)) = length ps.
Proof.
  induction ps as [| p ps IH]; intros g.
  - reflexivity.
  - rewrite update_all_cons. cbn [fst length]. rewrite IH. reflexivity.
Qed.

Lemma run_length (ticks : list Z) :
  forall st g,
    length (particles (fst (run ticks st g))) = length (particles st).
Proof.
  induction ticks as [| ms rest IH]; intros st g.
  - reflexivity.
  - rewrite run_cons, IH, frame_eq. cbn [fst particles].
    apply update_all_length.
Qed.

(** *** Generators and reachability *)

Lemma update_rng_ok (p : particle) (dt t : R) (g : rng) :
  rng_ok g -> rng_ok (snd (update p dt t g)).
Proof.
  intros Hg. rewrite update_eq. cbn [snd].
  destruct (recycle_cases (integrate p dt t) g)
    as [[_ E] | [[_ E] | [_ E]]]; rewrite E.
  - exact Hg.
  - rewrite reenter_rng. repeat apply rng_ok_advance. exact Hg.
  - rewrite reenter_rng. repeat apply rng_ok_advance. exact Hg.
Qed.

Lemma make_particles_ok (n : nat) :
  forall g, rng_ok g ->
            Forall reachable (fst (make_particles n g)) /\
            rng_ok (snd (make_particles n g)).
Proof.
  induction n as [| n IH]; intros g Hg.
  - split; [constructor | exact Hg].
  - rewrite make_particles_S. cbn [fst snd].
    assert (Hg1 : rng_ok (snd (init g)))
      by (rewrite init_rng; repeat apply rng_ok_advance; exact Hg).
    destruct (IH _ Hg1) as [Hf Hr].
    split; [constructor; [apply reach_init; exact Hg | exact Hf] | exact Hr].
Qed.

Lemma update_all_ok (ps : list particle) (dt t : R) :
  forall g, rng_ok g -> Forall reachable ps ->
            Forall reachable (fst (update_all ps dt t g)) /\
            rng_ok (snd (update_all ps dt t g)).
Proof.
  induction ps as [| p ps IH]; intros g Hg Hps.
  - split; [constructor | exact Hg].
  - rewrite update_all_cons. cbn [fst snd].
    inversion Hps as [| ? ? Hp Hrest]; subst.
    destruct (IH _ (update_rng_ok p dt t g Hg) Hrest) as [Hf Hr].
    split; [constructor; [apply reach_update; assumption | exact Hf]
           | exact Hr].
Qed.

Lemma run_ok (ticks : list Z) :
  forall st g, rng_ok g -> Forall reachable (particles st) ->
               Forall reachable (particles (fst (run ticks st g))) /\
               rng_ok (snd (run ticks st g)).
Proof.
  induction ticks as [| ms rest IH]; intros st g Hg Hst.
  - split; assumption.
  - rewrite run_cons. rewrite frame_eq. cbn [fst snd].
    destruct (update_all_ok (particles st) (IZR ms / 1000.0)
                (clock_t st + IZR ms / 1000.0) (advance g)
                (rng_ok_advance g Hg) Hst) as [Hf Hr].
    apply IH; [exact Hr | exact Hf].
Qed.

Lemma main_reachable (ticks : list Z) (g : rng) :
  rng_ok g -> Forall reachable (particles (fst (main ticks g))).
Proof.
  intros Hg. rewrite main_eq, start_eq. cbn [fst snd].
  destruct (make_particles_ok N_PARTICLES g Hg) as [Hf Hr].
  apply run_ok; [exact Hr | exact Hf].
Qed.

End DriverExtras.

Section DriverTheorems.

Import ListNotations.
Import Aux Samples Driver.

(** X18: the main loop never creates or drops a particle: after any
    number of frames the list holds [N_PARTICLES] = 300 particles, and a
    frame draws as many sprites. *)
Theorem main_particle_count (ticks : list Z) (g : rng) :
  length (particles (fst (main ticks g))) = 300%nat /\
  length (render (fst (main ticks g))) = 300%nat.
Proof.
  assert (H : length (particles (fst (main ticks g))) = 300%nat).
  { rewrite main_eq, run_length, start_eq. cbn [fst particles].
    apply make_particles_length. }
  split; [exact H |].
  unfold render. rewrite length_map. exact H.
Qed.

(** X19: after any number of frames, with any clock readings, every
    particle of the main loop is inside the extended screen box and
    carries the parameters of its current depth. *)
Theorem main_particles_valid (ticks : list Z) (g : rng) :
  rng_ok g ->
  Forall (fun p => reachable p /\ in_box p /\ params_consistent p)
         (particles (fst (main ticks g))).
Proof.
  intros Hg. pose proof (main_reachable ticks g Hg) as H.
  apply Forall_impl with (P := reachable); [| exact H].
  intros p Hp. split; [exact Hp |].
  split; [apply reachable_in_box | apply reachable_params_consistent];
    exact Hp.
Qed.

Lemma main_particles_valid_witness :
  rng_ok g_half /\
  Forall (fun p => reachable p /\ in_box p /\ params_consistent p)
         (particles (fst (main [4%Z; 5%Z] g_half))).
Proof.
  split; [exact g_half_ok |].
  exact (main_particles_valid [4%Z; 5%Z] g_half g_half_ok).
Defined.

Lemma run_clock (ticks : list Z) :
  forall st g,
    clock_t (fst (run ticks st g)) =
    clock_t st + IZR (total_ms ticks) / 1000.
Proof.
  induction ticks as [| ms rest IH]; intros st g.
  - cbn [run total_ms fold_right]. unfold ret. cbn [fst]. lra.
  - rewrite run_cons, IH, frame_eq. cbn [fst clock_t].
    cbn [total_ms fold_right]. fold (total_ms rest).
    rewrite plus_IZR. lra.
Qed.

Lemma total_ms_nonneg (ticks : list Z) :
  Forall (fun ms => (0 <= ms)%Z) ticks -> (0 <= total_ms ticks)%Z.
Proof.
  intros H. induction H as [| ms rest Hms _ IH].
  - cbn. lia.
  - unfold total_ms in *. cbn [fold_right]. lia.
Qed.

(** X20: the global time after a run is the sum of the clock readings,
    in seconds; it is not negative when no reading is. *)
Theorem main_clock (ticks : list Z) (g : rng) :
  clock_t (fst (main ticks g)) = IZR (total_ms ticks) / 1000 /\
  (Forall (fun ms => (0 <= ms)%Z) ticks ->
   0 <= clock_t (fst (main ticks g))).
Proof.
  assert (E : clock_t (fst (main ticks g)) = IZR (total_ms ticks) / 1000).
  { rewrite main_eq, run_clock, start_eq. cbn [fst clock_t]. lra. }
  split; [exact E |].
  intros Hpos. rewrite E.
  pose proof (total_ms_nonneg ticks Hpos) as Hsum.
  apply IZR_le in Hsum. lra.
Qed.

Lemma main_clock_witness :
  0 <= clock_t (fst (main [4%Z; 5%Z] g_half)).
Proof.
  destruct (main_clock [4%Z; 5%Z] g_half) as [_ H].
  apply H. repeat constructor; lia.
Defined.





End DriverTheorems.

(** ** Symmetries *)

Section Symmetries.

Import Aux Samples.

Lemma hash01_shift_period (i seed : Z) :
  hash01 (i + 2 ^ 32) seed = hash01 i seed.
Proof.
  apply hash01_eq_bits, hash01_bits_collide_iff.
  replace ((i + 2 ^ 32) * 374761393 + seed * 668265263)%Z
    with (i * 374761393 + seed * 668265263 + 374761393 * 2 ^ 32)%Z
    by ring.
  apply Z_mod_plus_full.
Qed.

(** X22: the noise repeats in time: shifting [t] by [2 ^ 32] gives the
    same value, for every seed. *)
Theorem value_noise_1d_period (t : R) (seed : Z) :
  value_noise_1d (t + IZR (2 ^ 32)) seed = value_noise_1d t seed.
Proof.
  unfold value_noise_1d. cbv zeta.
  rewrite Zfloor_addz.
  replace (Zfloor t + 2 ^ 32 + 1)%Z with (Zfloor t + 1 + 2 ^ 32)%Z by lia.
  rewrite !hash01_shift_period.
  replace (t + IZR (2 ^ 32) - IZR (Zfloor t + 2 ^ 32))
    with (t - IZR (Zfloor t)) by (rewrite plus_IZR; ring).
  reflexivity.
Qed.

(** X23: the forces do not depend on [x]: moving a particle sideways by
    [c] before the integration step moves the result by [c] and changes
    nothing else, so a horizontal wrap does not disturb the velocity or
    the vertical path. *)
Theorem integrate_x_translation (p : particle) (c dt t : R) :
  integrate (set_x p (x p + c)) dt t =
  set_x (integrate p dt t) (x (integrate p dt t) + c).
Proof.
  unfold integrate, set_x, damp. cbv zeta.
  cbn [x y depth size alpha gravity vx vy sway_amp sway_speed drag seed].
  f_equal. ring.
Qed.

End Symmetries.
